(** * Gemini Creative Suite: the generation workflow, verified

    A shallow embedding of the request plumbing of the creative studio
    (services/geminiService, components/ImageEditor, ImageGenerator and
    Chatbot) and the properties its specification states about it.

    JavaScript strings are sequences of UTF-16 code units, promises settle
    with a value or an error, and the external service is an oracle that
    answers each request it is sent. *)

From Stdlib Require Import NArith String Ascii Decimal DecimalNat.
From stdpp Require Import base option list.

(** ** JavaScript strings and the string operations the code uses *)

Module JS.

#[local] Open Scope N_scope.

(** A string is its list of UTF-16 code units. *)
Abbreviation jsstring := (list N).

(** A literal of the source (all of them are ASCII). *)
Definition lit (s : string) : jsstring :=
  map N_of_ascii (list_ascii_of_string s).

(** The double quote, which a literal here cannot hold. *)
Definition dquote : jsstring := [34].

(** [\s] of a regular expression, and what [trim] removes: WhiteSpace and
    LineTerminator of ECMAScript. *)
Definition is_space (c : N) : bool :=
  (9 <=? c) && (c <=? 13)
  || (c =? 32) || (c =? 160) || (c =? 5760)
  || (8192 <=? c) && (c <=? 8202)
  || (c =? 8232) || (c =? 8233) || (c =? 8239) || (c =? 8287)
  || (c =? 12288) || (c =? 65279).

(** [[a-zA-Z0-9]] *)
Definition is_alnum (c : N) : bool :=
  (97 <=? c) && (c <=? 122) || (65 <=? c) && (c <=? 90)
  || (48 <=? c) && (c <=? 57).

Definition underscore : N := 95.

(** [s.substring(0, n)] *)
Definition substring0 (n : nat) (s : jsstring) : jsstring := take n s.

Fixpoint trimStart (s : jsstring) : jsstring :=
  match s with
  | c :: s' => if is_space c then trimStart s' else s
  | [] => []
  end.

(** [s.trim()] *)
Definition trim (s : jsstring) : jsstring :=
  reverse (trimStart (reverse (trimStart s))).

(** [s.replace(/[^a-zA-Z0-9\s]/g, '')] *)
Definition strip_symbols (s : jsstring) : jsstring :=
  List.filter (fun c => is_alnum c || is_space c) s.

(** [s.replace(/\s+/g, '_')]: every maximal run of white space becomes one
    underscore. [in_run] says that the previous code unit was white space. *)
Fixpoint collapse_from (in_run : bool) (s : jsstring) : jsstring :=
  match s with
  | [] => []
  | c :: s' =>
      if is_space c
      then (if in_run then collapse_from true s'
            else underscore :: collapse_from true s')
      else c :: collapse_from false s'
  end.

Definition collapse_spaces (s : jsstring) : jsstring := collapse_from false s.

(** [a || b] on strings: the empty string is falsy. *)
Definition or_else (a b : jsstring) : jsstring :=
  match a with [] => b | _ => a end.

(** [a || b] where [a] may be [undefined]. *)
Definition or_default (a : option jsstring) (b : jsstring) : jsstring :=
  match a with Some ((_ :: _) as s) => s | _ => b end.

(** [s.split('.')[0]] *)
Fixpoint before_dot (s : jsstring) : jsstring :=
  match s with
  | [] => []
  | c :: s' => if c =? 46 then [] else c :: before_dot s'
  end.

Fixpoint digits (d : Decimal.uint) : jsstring :=
  match d with
  | Nil => []
  | D0 d => 48 :: digits d
  | D1 d => 49 :: digits d
  | D2 d => 50 :: digits d
  | D3 d => 51 :: digits d
  | D4 d => 52 :: digits d
  | D5 d => 53 :: digits d
  | D6 d => 54 :: digits d
  | D7 d => 55 :: digits d
  | D8 d => 56 :: digits d
  | D9 d => 57 :: digits d
  end.

(** A natural number in a template literal: its decimal digits. *)
Definition of_nat (n : nat) : jsstring := digits (Nat.to_uint n).

End JS.

Import JS.

(** ** Exceptions and promises *)

(** A JavaScript [Error]: the handlers only ever read its message. *)
Record Error := mkError { message : jsstring }.

(** How a [try] block ends, and how a promise settles. *)
Inductive result (A : Type) :=
| Ok (a : A)
| Throw (e : Error).
Arguments Ok {A} a.
Arguments Throw {A} e.

#[global] Instance result_ret : MRet result := fun A a => Ok a.

#[global] Instance result_bind : MBind result := fun A B k r =>
  match r with
  | Ok a => k a
  | Throw e => Throw e
  end.

(** [try { body } catch (error) { handler }] *)
Definition try_catch {A} (body : result A) (handler : Error -> result A)
  : result A :=
  match body with
  | Ok a => Ok a
  | Throw e => handler e
  end.

(** [xs.map(f)] where [f] may throw: the first exception ends the map. *)
Fixpoint map_throwing {A B} (f : A -> result B) (xs : list A)
  : result (list B) :=
  match xs with
  | [] => Ok []
  | x :: xs' => y ← f x; ys ← map_throwing f xs'; Ok (y :: ys)
  end.

(** What reading a property of [undefined] throws. Its message depends on
    the engine; every place it can arise catches it and throws its own. *)
Definition TypeError : Error := mkError (lit "TypeError").

(** [Promise.all], as ECMAScript defines it: a pre-sized list of values with
    one slot per input promise, a count of the promises still to fulfil, and
    the settlement of the aggregate promise once it is decided. *)
Module PromiseAll.

Record state (A : Type) := mkState {
  values : list (option A);
  remaining : nat;
  settled : option (result (list A))
}.
Arguments mkState {A} _ _ _.
Arguments values {A} _.
Arguments remaining {A} _.
Arguments settled {A} _.

Definition init {A} (K : nat) : state A :=
  mkState (replicate K None) K
          (match K with O => Some (Ok []) | S _ => None end).

(** The resolve-element function of slot [i]: it runs once, stores the value
    in its own slot, and resolves the aggregate when no promise is left. *)
Definition on_fulfilled {A} (i : nat) (v : A) (st : state A) : state A :=
  match values st !! i with
  | Some None =>
      let vs := <[i := Some v]> (values st) in
      let r := Nat.pred (remaining st) in
      mkState vs r
        (match settled st with
         | Some o => Some o
         | None => match r with
                   | O => Ok <$> mapM id vs
                   | S _ => None
                   end
         end)
  | _ => st
  end.

(** The reject function: the first rejection settles the aggregate. *)
Definition on_rejected {A} (e : Error) (st : state A) : state A :=
  mkState (values st) (remaining st)
    (match settled st with
     | Some o => Some o
     | None => Some (Throw e)
     end).

(** Promise [i] settles with its outcome. *)
Definition settle {A} (outcomes : list (result A)) (st : state A) (i : nat)
  : state A :=
  match outcomes !! i with
  | Some (Ok v) => on_fulfilled i v st
  | Some (Throw e) => on_rejected e st
  | None => st
  end.

Definition run {A} (outcomes : list (result A)) (schedule : list nat)
  : state A :=
  fold_left (settle outcomes) schedule (init (length outcomes)).

(** The slots not filled yet. *)
Fixpoint holes {A} (vs : list (option A)) : nat :=
  match vs with
  | [] => 0
  | None :: vs' => S (holes vs')
  | Some _ :: vs' => holes vs'
  end.

(** The count of promises left is the number of empty slots. *)
Definition counted {A} (st : state A) : Prop :=
  remaining st = holes (values st).

(** What the aggregate holds came from the promises, slot by slot. *)
Definition sound {A} (outcomes : list (result A)) (st : state A) : Prop :=
  length (values st) = length outcomes
  /\ (forall i v, values st !! i = Some (Some v) -> outcomes !! i = Some (Ok v))
  /\ (forall vs, settled st = Some (Ok vs) -> outcomes = Ok <$> vs).

End PromiseAll.

(** [await Promise.all(promises)], where [outcomes] is how each promise
    settles and [schedule] the order in which they complete. [None]: the
    aggregate is still pending when the schedule ends. *)
Definition promise_all {A} (outcomes : list (result A)) (schedule : list nat)
  : option (result (list A)) :=
  PromiseAll.settled (PromiseAll.run outcomes schedule).

(** ** The external service (the [@google/genai] client), as the code uses it *)

Module GenAI.

Inductive AspectRatio := Ratio_1_1 | Ratio_9_16 | Ratio_16_9 | Ratio_4_3 | Ratio_3_4.

(** The ratio as the string the source writes. *)
Definition ratio_text (r : AspectRatio) : jsstring :=
  match r with
  | Ratio_1_1 => lit "1:1"
  | Ratio_9_16 => lit "9:16"
  | Ratio_16_9 => lit "16:9"
  | Ratio_4_3 => lit "4:3"
  | Ratio_3_4 => lit "3:4"
  end.

Record Blob := mkBlob { data : jsstring; mimeType : jsstring }.

(** A part of a request or of a response: inline data or text. *)
Inductive Part :=
| InlineData (inlineData : Blob)
| Text (text : jsstring).

Record Content := mkContent { parts : option (list Part) }.
Record Candidate := mkCandidate { content : option Content }.
Record GenerateContentResponse := mkContentResponse {
  candidates : option (list Candidate)
}.

Record Image := mkImage { imageBytes : jsstring }.
Record GeneratedImage := mkGeneratedImage { image : Image }.
Record GenerateImagesResponse := mkImagesResponse {
  generatedImages : option (list GeneratedImage)
}.

Inductive Modality := IMAGE | TEXT.

Record GenerateImagesRequest := mkImagesRequest {
  images_model : jsstring;
  prompt : jsstring;
  numberOfImages : nat;
  outputMimeType : jsstring;
  aspectRatio : AspectRatio
}.

Record GenerateContentRequest := mkContentRequest {
  content_model : jsstring;
  contents : list Part;
  responseModalities : list Modality
}.

(** A request that leaves the system. *)
Inductive Call :=
| GenerateImages (request : GenerateImagesRequest)
| GenerateContent (request : GenerateContentRequest).

(** The service answers every request; [generateContent] is told which call
    of the running operation it answers, since the same request sent twice
    yields different variations. *)
Record GoogleGenAI := mkAI {
  generateImages : GenerateImagesRequest -> result GenerateImagesResponse;
  generateContent : nat -> GenerateContentRequest -> result GenerateContentResponse
}.

(** The prompt text a request carries: the prompt field, or its text parts. *)
Definition texts (c : Call) : list jsstring :=
  match c with
  | GenerateImages request => [prompt request]
  | GenerateContent request =>
      omap (fun p => match p with Text t => Some t | InlineData _ => None end)
           (contents request)
  end.

End GenAI.

(** ** services/geminiService *)

Module GeminiService.
Import GenAI.

Definition png_data_url (base64 : jsstring) : jsstring :=
  lit "data:image/png;base64," ++ base64.

Definition generateImage_failed : Error :=
  mkError (lit "Failed to generate image. Please check the console for details.").

Definition images_request (prompt : jsstring) (aspectRatio : AspectRatio)
  : GenerateImagesRequest :=
  mkImagesRequest (lit "imagen-4.0-generate-001") prompt 4 (lit "image/png")
                  aspectRatio.

Definition generateImage (ai : GoogleGenAI) (prompt : jsstring)
  (aspectRatio : AspectRatio) : list Call * result (list jsstring) :=
  let request := images_request prompt aspectRatio in
  ([GenerateImages request],
   try_catch
     (response ← generateImages ai request;
      match generatedImages response with
      | Some ((_ :: _) as imgs) =>
          Ok (map (fun img => png_data_url (imageBytes (image img))) imgs)
      | _ => Throw (mkError (lit "No images were generated."))
      end)
     (fun error => Throw generateImage_failed)).

(** [response.candidates && response.candidates[0].content.parts[0].inlineData]:
    the inline data of the first part of the first candidate, when the
    expression is truthy; reading through a missing link throws. *)
Definition first_inline_data (response : GenerateContentResponse)
  : result (option Blob) :=
  match candidates response with
  | None => Ok None
  | Some cs =>
      match cs !! 0 with
      | None => Throw TypeError
      | Some c =>
          match content c with
          | None => Throw TypeError
          | Some ct =>
              match parts ct with
              | None => Throw TypeError
              | Some ps =>
                  match ps !! 0 with
                  | None => Throw TypeError
                  | Some (InlineData b) => Ok (Some b)
                  | Some (Text _) => Ok None
                  end
              end
          end
      end
  end.

Definition scene_directive (aspectRatio : AspectRatio) : jsstring :=
  lit ". The image should have a " ++ ratio_text aspectRatio
  ++ lit " aspect ratio.".

Definition scene_request (prompt : jsstring) (aspectRatio : AspectRatio)
  (characterImages : list Blob) : GenerateContentRequest :=
  let imageParts :=
    map (fun img => InlineData (mkBlob (data img) (mimeType img)))
        characterImages in
  let finalPrompt := prompt ++ scene_directive aspectRatio in
  let textPart := Text finalPrompt in
  let allParts := imageParts ++ [textPart] in
  mkContentRequest (lit "gemini-2.5-flash-image") allParts [IMAGE].

Definition scene_failed (prompt : jsstring) : Error :=
  mkError (lit "Failed to generate scene: " ++ dquote ++ substring0 20 prompt
           ++ lit "..." ++ dquote ++ lit ". Check console for details.").

(** [k]: which call of the fan-out this is. *)
Definition generateStoryboardScene (ai : GoogleGenAI) (k : nat)
  (prompt : jsstring) (aspectRatio : AspectRatio) (characterImages : list Blob)
  : list Call * result jsstring :=
  let request := scene_request prompt aspectRatio characterImages in
  ([GenerateContent request],
   try_catch
     (response ← generateContent ai k request;
      found ← first_inline_data response;
      match found with
      | Some inline => Ok (png_data_url (data inline))
      | None =>
          Throw (mkError (lit "No image was generated for this scene. It might have been blocked for safety reasons."))
      end)
     (fun error => Throw (scene_failed prompt))).

Definition edit_request (prompt imageBase64 mimeType : jsstring)
  (referenceImage : option Blob) : GenerateContentRequest :=
  let contentParts :=
    [InlineData (mkBlob imageBase64 mimeType)]
    ++ match referenceImage with
       | Some ref => [InlineData (mkBlob (data ref) (GenAI.mimeType ref))]
       | None => []
       end
    ++ [Text prompt] in
  mkContentRequest (lit "gemini-2.5-flash-image") contentParts [IMAGE].

Definition editImage_failed : Error :=
  mkError (lit "Failed to edit image. Please check the console for details.").

(** The four variations are four calls sent at once; [schedule] is the order
    in which they complete. [None]: the operation is still awaiting them. *)
Definition editImage (ai : GoogleGenAI) (schedule : list nat)
  (prompt imageBase64 mimeType : jsstring) (referenceImage : option Blob)
  : list Call * option (result (list jsstring)) :=
  let request := edit_request prompt imageBase64 mimeType referenceImage in
  let requests := map (fun k => generateContent ai k request) (seq 0 4) in
  (map (fun _ => GenerateContent request) (seq 0 4),
   awaited ← promise_all requests schedule;
   Some (try_catch
     (responses ← awaited;
      imageUrls ← map_throwing (fun response =>
          found ← first_inline_data response;
          match found with
          | Some inline => Ok (png_data_url (data inline))
          | None =>
              Throw (mkError (lit "A sub-request for an edited image failed to return data."))
          end) responses;
      if Nat.eqb (length imageUrls) 4 then Ok imageUrls
      else Throw (mkError (lit "Could not generate all 4 image variations.")))
     (fun error => Throw editImage_failed))).

End GeminiService.

(** ** The browser side the components rely on *)

(** A file picked by the user. Its bytes are read by [fileToBase64] only. *)
Record File := mkFile { name : jsstring; type : jsstring }.

(** What an operation runs against: the service, [fileToBase64] of
    utils/fileUtils (it rejects when the file cannot be read), and the order
    in which the calls of a fan-out complete. *)
Record Env := mkEnv {
  ai : GenAI.GoogleGenAI;
  fileToBase64 : File -> result jsstring;
  schedule : list nat
}.

Definition unexpected_error : jsstring := lit "An unexpected error occurred.".

(** Object URLs, as [URL.createObjectURL] hands them out and
    [URL.revokeObjectURL] releases them: the URLs that are live, and a
    counter from which the next one is made, so that no URL is handed out
    twice. *)
Module Browser.

Record URLStore := mkStore { live : list jsstring; counter : nat }.

Definition empty : URLStore := mkStore [] 0.

Definition object_url (n : nat) : jsstring := lit "blob:" ++ of_nat n.

Definition createObjectURL (b : URLStore) : jsstring * URLStore :=
  let url := object_url (counter b) in
  (url, mkStore (url :: live b) (S (counter b))).

Definition revokeObjectURL (url : jsstring) (b : URLStore) : URLStore :=
  mkStore (List.filter (fun u => negb (bool_decide (u = url))) (live b))
          (counter b).

(** No URL is live twice, and every live URL was handed out. *)
Definition well_formed (b : URLStore) : Prop :=
  NoDup (live b)
  /\ forall u, u ∈ live b -> exists n, n < counter b /\ u = object_url n.

End Browser.

(** ** components/ImageEditor *)

Module ImageEditor.
Import GenAI GeminiService.

Inductive AspectRatio := original | ratio (r : GenAI.AspectRatio).

Record Upload := mkUpload { file : File; url : jsstring }.

Record State := mkState {
  prompt : jsstring;
  aspectRatio : AspectRatio;
  originalImage : option Upload;
  referenceImage : option Upload;
  editedImages : option (list jsstring);
  isLoading : bool;
  error : option jsstring
}.

Definition setEditedImages (v : option (list jsstring)) (s : State) : State :=
  mkState (prompt s) (aspectRatio s) (originalImage s) (referenceImage s)
          v (isLoading s) (error s).

Definition setIsLoading (v : bool) (s : State) : State :=
  mkState (prompt s) (aspectRatio s) (originalImage s) (referenceImage s)
          (editedImages s) v (error s).

Definition setError (v : option jsstring) (s : State) : State :=
  mkState (prompt s) (aspectRatio s) (originalImage s) (referenceImage s)
          (editedImages s) (isLoading s) v.

Definition edit_directive (r : GenAI.AspectRatio) : jsstring :=
  lit ". Change the aspect ratio of the image to " ++ ratio_text r ++ lit ".".

(** The prompt [handleEdit] sends. *)
Definition finalPrompt (prompt : jsstring) (aspectRatio : AspectRatio)
  : jsstring :=
  match aspectRatio with
  | original => prompt
  | ratio r => prompt ++ edit_directive r
  end.

(** The [catch] and [finally] of the handler. *)
Definition failed (err : Error) (s : State) : State :=
  setIsLoading false
    (setError (Some (or_else (message err) unexpected_error)) s).

(** The requests sent and the state the component is left in. *)
Definition handleEdit (env : Env) (s : State) : list Call * State :=
  match prompt s, originalImage s with
  | _ :: _, Some originalImage =>
      let s1 := setEditedImages None (setError None (setIsLoading true s)) in
      let finalPrompt := finalPrompt (prompt s) (aspectRatio s) in
      let encoded :=
        imageBase64 ← fileToBase64 env (file originalImage);
        referenceImagePart ←
          match referenceImage s with
          | Some referenceImage =>
              refBase64 ← fileToBase64 env (file referenceImage);
              Ok (Some (mkBlob refBase64 (type (file referenceImage))))
          | None => Ok None
          end;
        Ok (imageBase64, referenceImagePart) in
      match encoded with
      | Throw err => ([], failed err s1)
      | Ok (imageBase64, referenceImagePart) =>
          let (calls, outcome) :=
            editImage (ai env) (schedule env) finalPrompt imageBase64
                      (type (file originalImage)) referenceImagePart in
          (calls,
           match outcome with
           | None => s1
           | Some (Ok imageUrls) =>
               setIsLoading false (setEditedImages (Some imageUrls) s1)
           | Some (Throw err) => failed err s1
           end)
      end
  | _, _ =>
      ([], setError (Some (lit "Please upload an image and provide an editing prompt.")) s)
  end.

(** The name of the file a download saves; [None] when there is no image. *)
Definition handleDownload (s : State) (imageUrl : jsstring) (index : nat)
  : option jsstring :=
  match imageUrl with
  | [] => None
  | _ =>
      let originalName :=
        or_default ((fun o => before_dot (name (file o))) <$> originalImage s)
                   (lit "edited_image") in
      let promptPart :=
        collapse_spaces (strip_symbols (trim (substring0 30 (prompt s)))) in
      Some (originalName ++ lit "_" ++ or_else promptPart (lit "edited")
            ++ lit "_" ++ of_nat (index + 1) ++ lit ".png")
  end.

Definition setPrompt (v : jsstring) (s : State) : State :=
  mkState v (aspectRatio s) (originalImage s) (referenceImage s)
          (editedImages s) (isLoading s) (error s).

Definition setAspectRatio (v : AspectRatio) (s : State) : State :=
  mkState (prompt s) v (originalImage s) (referenceImage s)
          (editedImages s) (isLoading s) (error s).

Definition setOriginalImage (v : option Upload) (s : State) : State :=
  mkState (prompt s) (aspectRatio s) v (referenceImage s)
          (editedImages s) (isLoading s) (error s).

Definition setReferenceImage (v : option Upload) (s : State) : State :=
  mkState (prompt s) (aspectRatio s) (originalImage s) v
          (editedImages s) (isLoading s) (error s).

Definition initial : State :=
  mkState [] original None None None false None.

(** [picked] is [event.target.files?.[0]]: no file when the dialog was
    cancelled. *)
Definition handleFileChange (picked : option File) (b : Browser.URLStore)
  (s : State) : Browser.URLStore * State :=
  match picked with
  | Some file =>
      let b1 :=
        match originalImage s with
        | Some originalImage => Browser.revokeObjectURL (url originalImage) b
        | None => b
        end in
      let (fresh, b2) := Browser.createObjectURL b1 in
      (b2, setError None
             (setEditedImages None
                (setOriginalImage (Some (mkUpload file fresh)) s)))
  | None => (b, s)
  end.

Definition handleRemoveOriginalImage (b : Browser.URLStore) (s : State)
  : Browser.URLStore * State :=
  match originalImage s with
  | Some originalImage =>
      (Browser.revokeObjectURL (url originalImage) b, setOriginalImage None s)
  | None => (b, s)
  end.

Definition handleReferenceFileChange (picked : option File)
  (b : Browser.URLStore) (s : State) : Browser.URLStore * State :=
  match picked with
  | Some file =>
      let b1 :=
        match referenceImage s with
        | Some referenceImage => Browser.revokeObjectURL (url referenceImage) b
        | None => b
        end in
      let (fresh, b2) := Browser.createObjectURL b1 in
      (b2, setReferenceImage (Some (mkUpload file fresh)) s)
  | None => (b, s)
  end.

Definition handleRemoveReferenceImage (b : Browser.URLStore) (s : State)
  : Browser.URLStore * State :=
  match referenceImage s with
  | Some referenceImage =>
      (Browser.revokeObjectURL (url referenceImage) b, setReferenceImage None s)
  | None => (b, s)
  end.

(** [!originalImage] *)
Definition no_original (s : State) : bool :=
  match originalImage s with None => true | Some _ => false end.

(** [!prompt] *)
Definition no_prompt (s : State) : bool :=
  match prompt s with [] => true | _ => false end.

(** [disabled] of the edit button, and of the prompt and ratio inputs. *)
Definition edit_disabled (s : State) : bool :=
  isLoading s || no_prompt s || no_original s.

Definition inputs_disabled (s : State) : bool := isLoading s || no_original s.

(** What the form lets the user do. *)
Inductive Event :=
| PickOriginal (picked : option File)
| RemoveOriginal
| PickReference (picked : option File)
| RemoveReference
| ChangePrompt (value : jsstring)
| SelectRatio (r : AspectRatio)
| Edit (env : Env).

(** Every control is disabled while the component is loading; the remove
    buttons exist while there is an image to remove, which the handlers
    check themselves. *)
Definition dispatch (w : Browser.URLStore * State) (ev : Event)
  : Browser.URLStore * State :=
  let (b, s) := w in
  if isLoading s then w
  else
    match ev with
    | PickOriginal picked => handleFileChange picked b s
    | RemoveOriginal => handleRemoveOriginalImage b s
    | PickReference picked => handleReferenceFileChange picked b s
    | RemoveReference => handleRemoveReferenceImage b s
    | ChangePrompt value =>
        if inputs_disabled s then w else (b, setPrompt value s)
    | SelectRatio r =>
        if inputs_disabled s then w else (b, setAspectRatio r s)
    | Edit env => if edit_disabled s then w else (b, (handleEdit env s).2)
    end.

Definition run (evs : list Event) : Browser.URLStore * State :=
  fold_left dispatch evs (Browser.empty, initial).

(** The object URLs the component holds. *)
Definition held (s : State) : list jsstring :=
  match originalImage s with Some o => [url o] | None => [] end
  ++ match referenceImage s with Some r => [url r] | None => [] end.

(** The URLs that are live are those of the images held, each once. *)
Definition urls_in_use (w : Browser.URLStore * State) : Prop :=
  Browser.well_formed w.1
  /\ NoDup (held w.2)
  /\ forall u, u ∈ Browser.live w.1 <-> u ∈ held w.2.

End ImageEditor.

(** ** components/ImageGenerator *)

Module ImageGenerator.
Import GenAI GeminiService.

Inductive Mode := single | storyboard.

Record State := mkState {
  prompt : jsstring;
  storyboardPrompts : list jsstring;
  aspectRatio : AspectRatio;
  generatedImages : option (list jsstring);
  isLoading : bool;
  error : option jsstring;
  mode : Mode;
  characterImages : list (option File)
}.

Definition initial : State :=
  mkState [] [[]] Ratio_16_9 None false None single [None; None].

Definition setPrompt (v : jsstring) (s : State) : State :=
  mkState v (storyboardPrompts s) (aspectRatio s) (generatedImages s)
          (isLoading s) (error s) (mode s) (characterImages s).

Definition setStoryboardPrompts (v : list jsstring) (s : State) : State :=
  mkState (prompt s) v (aspectRatio s) (generatedImages s)
          (isLoading s) (error s) (mode s) (characterImages s).

Definition setAspectRatio (v : AspectRatio) (s : State) : State :=
  mkState (prompt s) (storyboardPrompts s) v (generatedImages s)
          (isLoading s) (error s) (mode s) (characterImages s).

Definition setGeneratedImages (v : option (list jsstring)) (s : State) : State :=
  mkState (prompt s) (storyboardPrompts s) (aspectRatio s) v
          (isLoading s) (error s) (mode s) (characterImages s).

Definition setIsLoading (v : bool) (s : State) : State :=
  mkState (prompt s) (storyboardPrompts s) (aspectRatio s) (generatedImages s)
          v (error s) (mode s) (characterImages s).

Definition setError (v : option jsstring) (s : State) : State :=
  mkState (prompt s) (storyboardPrompts s) (aspectRatio s) (generatedImages s)
          (isLoading s) v (mode s) (characterImages s).

Definition setMode (v : Mode) (s : State) : State :=
  mkState (prompt s) (storyboardPrompts s) (aspectRatio s) (generatedImages s)
          (isLoading s) (error s) v (characterImages s).

Definition setCharacterImages (v : list (option File)) (s : State) : State :=
  mkState (prompt s) (storyboardPrompts s) (aspectRatio s) (generatedImages s)
          (isLoading s) (error s) (mode s) v.

(** [xs.filter((x, i) => keep(x, i))], the index counted from [i]. *)
Fixpoint filter_indexed {A} (keep : A -> nat -> bool) (i : nat) (xs : list A)
  : list A :=
  match xs with
  | [] => []
  | x :: xs' =>
      if keep x i then x :: filter_indexed keep (S i) xs'
      else filter_indexed keep (S i) xs'
  end.

(** [index] is the row the form rendered, so a slot of the list. *)
Definition handleStoryboardPromptChange (index : nat) (value : jsstring)
  (s : State) : State :=
  let newPrompts := <[index := value]> (storyboardPrompts s) in
  setStoryboardPrompts newPrompts s.

Definition handleAddScene (s : State) : State :=
  setStoryboardPrompts (storyboardPrompts s ++ [[]]) s.

Definition handleRemoveScene (index : nat) (s : State) : State :=
  if Nat.ltb 1 (length (storyboardPrompts s)) then
    let newPrompts :=
      filter_indexed (fun _ i => negb (Nat.eqb i index)) 0
                     (storyboardPrompts s) in
    setStoryboardPrompts newPrompts s
  else s.

(** [p.trim() !== ''] *)
Definition not_blank (p : jsstring) : bool :=
  match trim p with [] => false | _ => true end.

(** The loop that encodes the character images that are set. *)
Fixpoint encode_characters (read : File -> result jsstring)
  (files : list (option File)) : result (list Blob) :=
  match files with
  | [] => Ok []
  | None :: files' => encode_characters read files'
  | Some file :: files' =>
      base64 ← read file;
      rest ← encode_characters read files';
      Ok (mkBlob base64 (type file) :: rest)
  end.

(** How the handler ends once the awaited result is there: the rest of the
    [try] block, or the [catch], and then the [finally]. *)
Definition finish (outcome : result (list jsstring)) (s : State) : State :=
  match outcome with
  | Ok imageUrls => setIsLoading false (setGeneratedImages (Some imageUrls) s)
  | Throw err =>
      setIsLoading false
        (setError (Some (or_else (message err) unexpected_error)) s)
  end.

(** The scene calls of a storyboard, one per valid prompt, in order. *)
Definition scene_calls (ai : GoogleGenAI) (validPrompts : list jsstring)
  (aspectRatio : AspectRatio) (characterImageParts : list Blob)
  : list (list Call * result jsstring) :=
  imap (fun k p => generateStoryboardScene ai k p aspectRatio characterImageParts)
       validPrompts.

(** The requests sent and the state the component is left in. *)
Definition handleGenerate (env : Env) (s : State) : list Call * State :=
  let s1 := setGeneratedImages None (setError None (setIsLoading true s)) in
  match mode s with
  | single =>
      match prompt s with
      | [] =>
          ([], setIsLoading false
                 (setIsLoading false
                    (setError (Some (lit "Please enter a prompt.")) s1)))
      | _ =>
          let (calls, outcome) :=
            generateImage (ai env) (prompt s) (aspectRatio s) in
          (calls, finish outcome s1)
      end
  | storyboard =>
      let validPrompts := List.filter not_blank (storyboardPrompts s) in
      match validPrompts with
      | [] =>
          ([], setIsLoading false
                 (setIsLoading false
                    (setError (Some (lit "Please enter a prompt for at least one scene.")) s1)))
      | _ =>
          match encode_characters (fileToBase64 env) (characterImages s) with
          | Throw err => ([], finish (Throw err) s1)
          | Ok characterImageParts =>
              let imagePromises :=
                scene_calls (ai env) validPrompts (aspectRatio s)
                            characterImageParts in
              (concat (map fst imagePromises),
               match promise_all (map snd imagePromises) (schedule env) with
               | None => s1
               | Some outcome => finish outcome s1
               end)
          end
      end
  end.

(** The name of the file a download saves; [None] when there is no image. *)
Definition handleDownload (s : State) (imageUrl : jsstring) (index : nat)
  : option jsstring :=
  match imageUrl with
  | [] => None
  | _ =>
      let filenamePrompt :=
        match mode s with
        | single => prompt s
        | storyboard =>
            or_default (storyboardPrompts s !! index) (lit "storyboard_scene")
        end in
      let filename :=
        or_else
          (collapse_spaces (strip_symbols (trim (substring0 50 filenamePrompt))))
          (lit "generated_image") in
      let suffix :=
        match mode s with
        | single => lit "_" ++ of_nat (index + 1)
        | storyboard => lit "_scene_" ++ of_nat (index + 1)
        end in
      Some (filename ++ suffix ++ lit ".png")
  end.

(** What the form lets the user do. *)
Inductive Event :=
| ChangePrompt (value : jsstring)
| ChangeScene (index : nat) (value : jsstring)
| AddScene
| RemoveScene (index : nat)
| SelectMode (m : Mode)
| SelectRatio (r : AspectRatio)
| Generate (env : Env).

(** A scene row, with its input, exists for every index below the length of
    the list and for no other. *)
Definition dispatch (s : State) (ev : Event) : State :=
  match ev with
  | ChangePrompt value => setPrompt value s
  | ChangeScene index value =>
      if Nat.ltb index (length (storyboardPrompts s))
      then handleStoryboardPromptChange index value s else s
  | AddScene => handleAddScene s
  | RemoveScene index => handleRemoveScene index s
  | SelectMode m => setMode m s
  | SelectRatio r => setAspectRatio r s
  | Generate env => (handleGenerate env s).2
  end.

(** [!prompt.trim()] *)
Definition blank (p : jsstring) : bool := negb (not_blank p).

Definition isGenerateDisabled (s : State) : bool :=
  isLoading s
  || match mode s with
     | single => blank (prompt s)
     | storyboard => forallb blank (storyboardPrompts s)
     end.

(** The component's state with the [useState] of the character previews,
    the object URLs of the character images. *)
Record Form := mkForm {
  state : State;
  characterImageUrls : list (option jsstring)
}.

Definition initial_form : Form := mkForm initial [None; None].

(** [if (characterImageUrls[index]) URL.revokeObjectURL(...)] *)
Definition revoke_slot (index : nat) (urls : list (option jsstring))
  (b : Browser.URLStore) : Browser.URLStore :=
  match urls !! index with
  | Some (Some ((_ :: _) as old)) => Browser.revokeObjectURL old b
  | _ => b
  end.

(** [index] is 0 or 1, a slot of both lists. *)
Definition handleCharacterFileChange (index : nat) (picked : option File)
  (b : Browser.URLStore) (f : Form) : Browser.URLStore * Form :=
  match picked with
  | Some file =>
      let b1 := revoke_slot index (characterImageUrls f) b in
      let newImages := <[index := Some file]> (characterImages (state f)) in
      let (fresh, b2) := Browser.createObjectURL b1 in
      let newUrls := <[index := Some fresh]> (characterImageUrls f) in
      (b2, mkForm (setCharacterImages newImages (state f)) newUrls)
  | None => (b, f)
  end.

Definition handleRemoveCharacterImage (index : nat) (b : Browser.URLStore)
  (f : Form) : Browser.URLStore * Form :=
  let b1 := revoke_slot index (characterImageUrls f) b in
  let newImages := <[index := None]> (characterImages (state f)) in
  let newUrls := <[index := None]> (characterImageUrls f) in
  (b1, mkForm (setCharacterImages newImages (state f)) newUrls).

Inductive FormEvent :=
| PickCharacter (index : nat) (picked : option File)
| RemoveCharacter (index : nat)
| Other (ev : Event).

(** The two character slots are rendered for the indices 0 and 1; the
    remove button of a slot is there while the slot shows an image. *)
Definition dispatch_form (w : Browser.URLStore * Form) (ev : FormEvent)
  : Browser.URLStore * Form :=
  let (b, f) := w in
  match ev with
  | PickCharacter index picked =>
      if Nat.ltb index 2 then handleCharacterFileChange index picked b f
      else w
  | RemoveCharacter index =>
      match characterImageUrls f !! index with
      | Some (Some (_ :: _)) =>
          if Nat.ltb index 2 then handleRemoveCharacterImage index b f else w
      | _ => w
      end
  | Other ev => (b, mkForm (dispatch (state f) ev) (characterImageUrls f))
  end.

Definition run_form (evs : list FormEvent) : Browser.URLStore * Form :=
  fold_left dispatch_form evs (Browser.empty, initial_form).

(** Two slots, each with a file and its URL or with neither, and the URLs
    that are live are those of the slots, each once. *)
Definition slots_in_use (w : Browser.URLStore * Form) : Prop :=
  Browser.well_formed w.1
  /\ length (characterImages (state w.2)) = 2
  /\ length (characterImageUrls w.2) = 2
  /\ (forall i,
        (exists file, characterImages (state w.2) !! i = Some (Some file))
        <-> (exists u, characterImageUrls w.2 !! i = Some (Some u)))
  /\ NoDup (omap id (characterImageUrls w.2))
  /\ forall u, u ∈ Browser.live w.1 <-> u ∈ omap id (characterImageUrls w.2).

End ImageGenerator.

(** ** components/Chatbot *)

Module Chatbot.

Inductive Role := user | model.

Record ChatMessage := mkMessage { role : Role; text : jsstring }.

(** The session handle [createChatSession] returns. *)
Inductive Chat := chatSession.

(** The component's state, and with it what has been handed to
    [chat.sendMessage]: every message sent, and how many of the calls have
    not settled yet. *)
Record State := mkState {
  chat : option Chat;
  messages : list ChatMessage;
  userInput : jsstring;
  isLoading : bool;
  sent : list jsstring;
  pending : nat
}.

Definition initial : State := mkState None [] [] false [] 0.

(** [!userInput.trim()] *)
Definition blank (input : jsstring) : bool :=
  match trim input with [] => true | _ => false end.

Definition no_chat (s : State) : bool :=
  match chat s with None => true | Some _ => false end.

Definition apology : ChatMessage :=
  mkMessage model (lit "Sorry, I encountered an error. Please try again.").

(** [handleSendMessage] up to its [await]. *)
Definition handleSendMessage (s : State) : State :=
  if blank (userInput s) || no_chat s then s
  else
    let userMessage := mkMessage user (userInput s) in
    mkState (chat s) (messages s ++ [userMessage]) [] true
            (sent s ++ [userInput s]) (S (pending s)).

(** [handleSendMessage] from its [await] on, when the call settles. *)
Definition resume (outcome : result jsstring) (s : State) : State :=
  match pending s with
  | O => s
  | S n =>
      let reply :=
        match outcome with
        | Ok response_text => mkMessage model response_text
        | Throw error => apology
        end in
      mkState (chat s) (messages s ++ [reply]) (userInput s) false
              (sent s) n
  end.

Definition handleKeyPress (key : jsstring) (s : State) : State :=
  if bool_decide (key = lit "Enter") && negb (isLoading s)
  then handleSendMessage s else s.

(** [disabled] of the input and of the send button. *)
Definition input_disabled (s : State) : bool := isLoading s || no_chat s.

Definition button_disabled (s : State) : bool :=
  isLoading s || no_chat s || blank (userInput s).

Inductive Event :=
| Mount
| ChangeInput (value : jsstring)
| ClickSend
| KeyPress (key : jsstring)
| Response (outcome : result jsstring).

(** A disabled control raises no event. *)
Definition dispatch (s : State) (ev : Event) : State :=
  match ev with
  | Mount =>
      mkState (Some chatSession) (messages s) (userInput s) (isLoading s)
              (sent s) (pending s)
  | ChangeInput value =>
      if input_disabled s then s
      else mkState (chat s) (messages s) value (isLoading s) (sent s) (pending s)
  | ClickSend => if button_disabled s then s else handleSendMessage s
  | KeyPress key => if input_disabled s then s else handleKeyPress key s
  | Response outcome => resume outcome s
  end.

Definition run (s : State) (evs : list Event) : State :=
  fold_left dispatch evs s.

(** The states of the session. *)
Inductive Phase := Uninitialized | Ready | AwaitingResponse.

Definition phase (s : State) : Phase :=
  match chat s with
  | None => Uninitialized
  | Some _ => if isLoading s then AwaitingResponse else Ready
  end.

(** A submit: the two events that can reach [handleSendMessage]. *)
Definition is_submit (ev : Event) : bool :=
  match ev with
  | ClickSend | KeyPress _ => true
  | _ => false
  end.

Definition is_response (ev : Event) : bool :=
  match ev with
  | Response _ => true
  | _ => false
  end.

(** The component is loading with one call pending, or idle with none. *)
Definition in_flight_inv (s : State) : Prop :=
  (isLoading s = true /\ pending s = 1) \/ (isLoading s = false /\ pending s = 0).

Definition other (r : Role) : Role :=
  match r with user => model | model => user end.

Definition is_role (r : Role) (m : ChatMessage) : bool :=
  match r, role m with
  | user, user | model, model => true
  | _, _ => false
  end.

(** The roles of a transcript alternate, beginning with [next]. *)
Fixpoint alternates (next : Role) (transcript : list ChatMessage) : bool :=
  match transcript with
  | [] => true
  | m :: transcript' => is_role next m && alternates (other next) transcript'
  end.

(** The transcript is a sequence of exchanges, the last of which lacks its
    reply exactly while the component is loading; and what was sent is what
    the user's messages show. *)
Definition conversation (s : State) : Prop :=
  in_flight_inv s
  /\ alternates user (messages s) = true
  /\ Nat.odd (length (messages s)) = isLoading s
  /\ sent s = map text (List.filter (is_role user) (messages s))
  /\ Forall (fun t => blank t = false) (sent s).

End Chatbot.

(** ** The file name of a download, in the words of the specification *)

Module Spec.

(** The file name as the specification words it: the prompt truncated, what
    is not alphanumeric stripped, white space collapsed to an underscore,
    then the 1-based index and the extension. The length [limit] and the
    separator are the code's. *)
Definition file_name (limit : nat) (prompt : jsstring) (index : nat)
  : jsstring :=
  collapse_spaces (strip_symbols (substring0 limit prompt))
  ++ lit "_" ++ of_nat (index + 1) ++ lit ".png".

End Spec.

(** ** Characters of a file name *)

Definition is_digit (c : N) : bool := (48 <=? c)%N && (c <=? 57)%N.


(** ** Concrete services and states, to run the model on *)

Module Sample.
Import GenAI.

Definition image_response (base64 : jsstring) : GenerateContentResponse :=
  mkContentResponse
    (Some [mkCandidate (Some (mkContent (Some
       [InlineData (mkBlob base64 (lit "image/png"))]))) ]).

(** The bytes the sample service returns for its [k]-th call. *)
Definition bytes (k : nat) : jsstring := lit "IMG" ++ of_nat k.

Definition four_images : GenerateImagesResponse :=
  mkImagesResponse
    (Some (map (fun k => mkGeneratedImage (mkImage (bytes k))) (seq 0 4))).

(** A service that answers every request. *)
Definition ai_ok : GoogleGenAI :=
  mkAI (fun _ => Ok four_images) (fun k _ => Ok (image_response (bytes k))).

(** A service whose [n]-th content call fails with [e]. *)
Definition ai_failing (n : nat) (e : Error) : GoogleGenAI :=
  mkAI (fun _ => Ok four_images)
       (fun k _ => if Nat.eqb k n then Throw e else Ok (image_response (bytes k))).

(** A service that returns one image where four were asked for. *)
Definition ai_short : GoogleGenAI :=
  mkAI (fun _ => Ok (mkImagesResponse (Some [mkGeneratedImage (mkImage (bytes 0))])))
       (fun k _ => Ok (image_response (bytes k))).

Definition read_ok (f : File) : result jsstring := Ok (lit "QUJD").

Definition quota : Error := mkError (lit "quota exceeded").

(** A storyboard of two scenes around a blank one. *)
Definition storyboard_state : ImageGenerator.State :=
  ImageGenerator.mkState [] [lit "A hero discovers a glowing orb"; lit "  "; lit "The orb opens"]
    Ratio_16_9 None false None ImageGenerator.storyboard [None; None].

End Sample.

Module SampleRuns.
Import GenAI.

(** The storyboard above, its second call completing first. *)
Definition storyboard_env : Env := mkEnv Sample.ai_ok Sample.read_ok [1; 0].

(** The same storyboard when the call of its second scene fails, after the
    first has completed. *)
Definition failing_env : Env :=
  mkEnv (Sample.ai_failing 1 Sample.quota) Sample.read_ok [0; 1].

Definition edit_prompt : jsstring := lit "make the sky blue".

Definition photo : ImageEditor.Upload :=
  ImageEditor.mkUpload (mkFile (lit "holiday.photo.png") (lit "image/png"))
                       (lit "blob:1").

(** An editor ready to submit, with a 16:9 ratio chosen. *)
Definition editor_state : ImageEditor.State :=
  ImageEditor.mkState edit_prompt (ImageEditor.ratio Ratio_16_9) (Some photo)
                      None None false None.

Definition edit_env : Env := mkEnv Sample.ai_ok Sample.read_ok [3; 1; 0; 2].

(** The request each of the four calls of that edit carries. *)
Definition edit_call : Call :=
  GenerateContent
    (GeminiService.edit_request
       (edit_prompt ++ lit ". Change the aspect ratio of the image to 16:9.")
       (lit "QUJD") (lit "image/png") None).

(** Nothing to submit: a generator and an editor whose prompts are empty,
    and a storyboard of blank scenes. *)
Definition empty_generator : ImageGenerator.State := ImageGenerator.initial.

Definition blank_storyboard : ImageGenerator.State :=
  ImageGenerator.mkState (lit "unused") [[]; lit "  "] Ratio_1_1
    (Some [lit "data:old"]) false None ImageGenerator.storyboard [None; None].

Definition empty_editor : ImageEditor.State :=
  ImageEditor.mkState [] ImageEditor.original (Some photo) None
                      (Some [lit "data:old"]) false None.

(** An edit whose first call fails. *)
Definition failing_edit : list Call * option (result (list jsstring)) :=
  GeminiService.editImage (Sample.ai_failing 0 Sample.quota) [0; 1; 2; 3]
    edit_prompt (lit "QUJD") (lit "image/png") None.

(** How the four calls of that edit settle. *)
Definition failing_edit_calls : list (result GenerateContentResponse) :=
  map (fun k => generateContent (Sample.ai_failing 0 Sample.quota) k
         (GeminiService.edit_request edit_prompt (lit "QUJD") (lit "image/png") None))
      (seq 0 4).

(** A generator whose prompt holds no letter, digit or space. *)
Definition symbols_state : ImageGenerator.State :=
  ImageGenerator.setPrompt (lit "!!!") ImageGenerator.initial.

(** A generator with a prompt to name files after. *)
Definition hero_state : ImageGenerator.State :=
  ImageGenerator.setPrompt (lit "  A hero discovers: a   glowing orb! ")
                           ImageGenerator.initial.

(** A session that has said hello and awaits the reply. *)
Definition awaiting_chat : Chatbot.State :=
  Chatbot.run Chatbot.initial
    [Chatbot.Mount; Chatbot.ChangeInput (lit "hello"); Chatbot.ClickSend].

(** A session that has just been opened. *)
Definition ready_chat : Chatbot.State :=
  Chatbot.run Chatbot.initial [Chatbot.Mount].

End SampleRuns.

Module SampleForms.
Import GenAI.

Definition portrait : File := mkFile (lit "portrait.png") (lit "image/png").

Definition broken : File := mkFile (lit "broken.jpg") (lit "image/jpeg").

(** A reader that cannot read the file named broken.jpg. *)
Definition read_some (f : File) : result jsstring :=
  if bool_decide (name f = lit "broken.jpg")
  then Throw (mkError (lit "The file could not be read."))
  else Ok (lit "QUJD").

Definition unreadable_env : Env := mkEnv Sample.ai_ok read_some [0; 1].

(** The sample storyboard with two character images, the second of which
    cannot be read. *)
Definition cast_state : ImageGenerator.State :=
  ImageGenerator.setCharacterImages [Some portrait; Some broken]
    Sample.storyboard_state.

(** The sample editor with a reference image that cannot be read. *)
Definition referenced_editor : ImageEditor.State :=
  ImageEditor.setReferenceImage
    (Some (ImageEditor.mkUpload broken (lit "blob:7")))
    SampleRuns.editor_state.

End SampleForms.

(** * Properties *)

(** ** Promise.all *)

Section PromiseAllFacts.
Context {A : Type}.
Implicit Types (st : PromiseAll.state A) (vs : list (option A)).
Implicit Types (outcomes : list (result A)) (schedule : list nat).

Lemma holes_replicate (K : nat) : PromiseAll.holes (replicate K (@None A)) = K.
Proof. induction K as [|K IH]; simpl; congruence. Qed.

Lemma holes_fill vs i v :
  vs !! i = Some None ->
  PromiseAll.holes vs = S (PromiseAll.holes (<[i := Some v]> vs)).
Proof.
  revert i. induction vs as [|o vs IH]; intros [|i] Hi; simplify_eq/=.
  - reflexivity.
  - destruct o; simpl; erewrite IH by eassumption; reflexivity.
Qed.

Lemma holes_positive vs i : vs !! i = Some None -> 0 < PromiseAll.holes vs.
Proof.
  revert i. induction vs as [|o vs IH]; intros [|i] Hi; simplify_eq/=.
  - lia.
  - destruct o; [|lia]. eauto.
Qed.

Lemma counted_init (K : nat) : PromiseAll.counted (PromiseAll.init (A:=A) K).
Proof. unfold PromiseAll.counted. simpl. by rewrite holes_replicate. Qed.

Lemma counted_settle outcomes st i :
  PromiseAll.counted st -> PromiseAll.counted (PromiseAll.settle outcomes st i).
Proof.
  unfold PromiseAll.counted, PromiseAll.settle, PromiseAll.on_fulfilled.
  intros Hc. destruct (outcomes !! i) as [[v|e]|]; simpl; try done.
  destruct (PromiseAll.values st !! i) as [[?|]|] eqn:Hi; simpl; try done.
  rewrite Hc. by rewrite (holes_fill _ i v Hi).
Qed.

(** Once the aggregate has settled, nothing changes its settlement. *)
Lemma settled_settle outcomes st i o :
  PromiseAll.settled st = Some o ->
  PromiseAll.settled (PromiseAll.settle outcomes st i) = Some o.
Proof.
  unfold PromiseAll.settle, PromiseAll.on_fulfilled, PromiseAll.on_rejected.
  intros Hs. destruct (outcomes !! i) as [[v|e]|]; simpl; try done.
  - destruct (PromiseAll.values st !! i) as [[?|]|]; simpl; by rewrite ?Hs.
  - by rewrite Hs.
Qed.

Lemma settled_fold outcomes schedule st o :
  PromiseAll.settled st = Some o ->
  PromiseAll.settled (fold_left (PromiseAll.settle outcomes) schedule st) = Some o.
Proof.
  revert st. induction schedule as [|i schedule IH]; intros st Hs; simpl.
  - done.
  - apply IH. by apply settled_settle.
Qed.

(** While a promise that will reject has not completed, fulfilments of the
    others leave the aggregate pending and its slot empty. *)
Lemma pending_settle outcomes st i j e :
  PromiseAll.counted st ->
  PromiseAll.settled st = None ->
  PromiseAll.values st !! i = Some None ->
  outcomes !! i = Some (Throw e) ->
  (forall e', outcomes !! j <> Some (Throw e')) ->
  PromiseAll.settled (PromiseAll.settle outcomes st j) = None
  /\ PromiseAll.values (PromiseAll.settle outcomes st j) !! i = Some None.
Proof.
  intros Hc Hs Hi Hfail Hj.
  assert (Hc' := counted_settle outcomes st j Hc). revert Hc'.
  unfold PromiseAll.counted, PromiseAll.settle, PromiseAll.on_fulfilled.
  destruct (outcomes !! j) as [[v|e']|] eqn:Hoj; simpl; try done.
  - destruct (PromiseAll.values st !! j) as [[?|]|] eqn:Hvj; simpl; try done.
    assert (i <> j) by congruence.
    intros Hc'. rewrite Hs.
    assert (Hi' : <[j := Some v]> (PromiseAll.values st) !! i = Some None)
      by (by rewrite list_lookup_insert_ne).
    split; [|done].
    apply holes_positive in Hi'. rewrite <- Hc' in Hi'.
    destruct (Nat.pred (PromiseAll.remaining st)); [lia|done].
  - by destruct (Hj e').
Qed.

Lemma pending_fold outcomes pre st i e :
  PromiseAll.counted st ->
  PromiseAll.settled st = None ->
  PromiseAll.values st !! i = Some None ->
  outcomes !! i = Some (Throw e) ->
  (forall j e', j ∈ pre -> outcomes !! j <> Some (Throw e')) ->
  PromiseAll.settled (fold_left (PromiseAll.settle outcomes) pre st) = None
  /\ PromiseAll.values (fold_left (PromiseAll.settle outcomes) pre st) !! i
     = Some None.
Proof.
  revert st. induction pre as [|j pre IH]; intros st Hc Hs Hi Hfail Hpre; simpl.
  - done.
  - destruct (pending_settle outcomes st i j e) as [Hs' Hi']; try done.
    { intros e'. apply Hpre. left. }
    apply IH; try done.
    + by apply counted_settle.
    + intros j' e' Hj'. apply Hpre. by right.
Qed.

(** The aggregate rejects with the error of the promise that rejects first
    in completion order, whatever completes after it. *)
Lemma promise_all_first_failure outcomes pre i post e :
  outcomes !! i = Some (Throw e) ->
  (forall j e', j ∈ pre -> outcomes !! j <> Some (Throw e')) ->
  promise_all outcomes (pre ++ i :: post) = Some (Throw e).
Proof.
  intros Hfail Hpre. unfold promise_all, PromiseAll.run.
  rewrite fold_left_app. simpl.
  assert (Hlt : i < length outcomes) by (by eapply lookup_lt_Some).
  destruct (pending_fold outcomes pre (PromiseAll.init (length outcomes)) i e)
    as [Hs Hi]; try done.
  - apply counted_init.
  - simpl. destruct (length outcomes); [lia|done].
  - simpl. by apply lookup_replicate_2.
  - apply settled_fold.
    unfold PromiseAll.settle at 1. rewrite Hfail. simpl. by rewrite Hs.
Qed.

(** The slots after the promises of [done] have been fulfilled. *)
Lemma filled_all (vs : list A) (l : list (option A)) (done : list nat) :
  done ≡ₚ seq 0 (length vs) ->
  length l = length vs ->
  (forall i v, vs !! i = Some v ->
     l !! i = Some (if bool_decide (i ∈ done) then Some v else None)) ->
  l = Some <$> vs.
Proof.
  intros Hperm Hlen Hl. apply list_eq. intros i.
  rewrite list_lookup_fmap.
  destruct (vs !! i) as [v|] eqn:Hv; simpl.
  - rewrite (Hl i v Hv). rewrite bool_decide_eq_true_2; [done|].
    rewrite Hperm. apply elem_of_seq. apply lookup_lt_Some in Hv. lia.
  - apply lookup_ge_None. apply lookup_ge_None in Hv. lia.
Qed.

Lemma fulfilled_fold (vs : list A) (todo done : list nat) st :
  done ++ todo ≡ₚ seq 0 (length vs) ->
  length (PromiseAll.values st) = length vs ->
  (forall i v, vs !! i = Some v ->
     PromiseAll.values st !! i
     = Some (if bool_decide (i ∈ done) then Some v else None)) ->
  PromiseAll.remaining st = length todo ->
  PromiseAll.settled st = match todo with [] => Some (Ok vs) | _ => None end ->
  PromiseAll.settled (fold_left (PromiseAll.settle (Ok <$> vs)) todo st)
  = Some (Ok vs).
Proof.
  revert done st.
  induction todo as [|i todo IH]; intros done st Hperm Hlen Hvals Hrem Hs.
  - done.
  - simpl.
    assert (Hnodup : NoDup (done ++ i :: todo))
      by (rewrite Hperm; apply NoDup_seq).
    assert (Hi : i < length vs).
    { assert (i ∈ seq 0 (length vs)) as Hin%elem_of_seq
        by (rewrite <- Hperm; apply elem_of_app; right; left). lia. }
    assert (Hnotin : i ∉ done).
    { apply NoDup_app in Hnodup as (_ & Hdisj & _).
      intros Hin. apply (Hdisj i Hin). left. }
    destruct (lookup_lt_is_Some_2 vs i Hi) as [v Hv].
    assert (Hslot : PromiseAll.values st !! i = Some None).
    { rewrite (Hvals i v Hv). by rewrite bool_decide_eq_false_2. }
    assert (Hnew : forall j w, vs !! j = Some w ->
      <[i := Some v]> (PromiseAll.values st) !! j
      = Some (if bool_decide (j ∈ done ++ [i]) then Some w else None)).
    { intros j w Hw. destruct (decide (i = j)) as [->|Hne].
      - rewrite list_lookup_insert_eq by lia.
        rewrite bool_decide_eq_true_2
          by (apply elem_of_app; right; apply list_elem_of_singleton; done).
        congruence.
      - rewrite list_lookup_insert_ne by done. rewrite (Hvals j w Hw).
        f_equal. rewrite (bool_decide_ext (j ∈ done ++ [i]) (j ∈ done)); [done|].
        rewrite elem_of_app, list_elem_of_singleton. intuition congruence. }
    unfold PromiseAll.settle at 2. rewrite list_lookup_fmap, Hv. simpl.
    unfold PromiseAll.on_fulfilled. rewrite Hslot.
    apply (IH (done ++ [i])); simpl.
    + by rewrite <- app_assoc.
    + by rewrite length_insert.
    + done.
    + rewrite Hrem. done.
    + rewrite Hs, Hrem. simpl. destruct todo as [|i' todo]; simpl; [|done].
      rewrite (filled_all vs _ (done ++ [i])).
      * by rewrite mapM_fmap_Some.
      * by rewrite <- Hperm.
      * by rewrite length_insert.
      * done.
Qed.

(** When every promise fulfils, the aggregate fulfils with the values in the
    order of the promises, whatever the order of completion. *)
Lemma promise_all_fulfilled (vs : list A) schedule :
  schedule ≡ₚ seq 0 (length vs) ->
  promise_all (Ok <$> vs) schedule = Some (Ok vs).
Proof.
  intros Hperm. unfold promise_all, PromiseAll.run.
  rewrite length_fmap.
  apply (fulfilled_fold vs schedule []); simpl.
  - done.
  - by rewrite length_replicate.
  - intros i v Hv. apply lookup_replicate_2. by eapply lookup_lt_Some.
  - by rewrite Hperm, length_seq.
  - destruct schedule as [|i schedule].
    + apply Permutation_nil_l in Hperm.
      destruct vs; [done|discriminate].
    + destruct vs; [|done]. by apply Permutation_nil_r in Hperm.
Qed.

End PromiseAllFacts.

(** ** The storyboard fan-out *)

Section Storyboard.
Import GenAI GeminiService ImageGenerator.

Lemma all_ok_values {A} (outcomes : list (result A)) :
  (forall i o, outcomes !! i = Some o -> exists v, o = Ok v) ->
  exists vs, outcomes = Ok <$> vs.
Proof.
  induction outcomes as [|o outcomes IH]; intros Hall.
  - by exists [].
  - destruct (Hall 0 o eq_refl) as [v ->].
    destruct IH as [vs ->]; [intros i o' Hi; by apply (Hall (S i))|].
    by exists (v :: vs).
Qed.

Lemma scene_calls_outcome ai validPrompts r imgs i :
  (scene_calls ai validPrompts r imgs).*2 !! i
  = (fun p => (generateStoryboardScene ai i p r imgs).2) <$> validPrompts !! i.
Proof.
  unfold scene_calls. rewrite list_lookup_fmap, list_lookup_imap.
  by destruct (validPrompts !! i).
Qed.

Lemma scene_calls_length ai validPrompts r imgs :
  length (scene_calls ai validPrompts r imgs).*2 = length validPrompts.
Proof. unfold scene_calls. by rewrite length_fmap, length_imap. Qed.

(** What a storyboard submission does once its prompts are validated and the
    character images encoded. *)
Lemma handleGenerate_storyboard env s characterImageParts :
  mode s = storyboard ->
  List.filter not_blank (storyboardPrompts s) <> [] ->
  encode_characters (fileToBase64 env) (characterImages s)
    = Ok characterImageParts ->
  (handleGenerate env s).2
  = let s1 := setGeneratedImages None (setError None (setIsLoading true s)) in
    match promise_all
            (scene_calls (ai env) (List.filter not_blank (storyboardPrompts s))
                         (aspectRatio s) characterImageParts).*2
            (schedule env) with
    | None => s1
    | Some outcome => finish outcome s1
    end.
Proof.
  intros Hmode Hvalid Henc. unfold handleGenerate. rewrite Hmode.
  destruct (List.filter not_blank (storyboardPrompts s)) as [|p ps] eqn:Hf;
    [done|].
  by rewrite Henc.
Qed.

(** C1. In a storyboard fan-out of K >= 1 non-blank scene prompts (the
    character images, if any, having been read) whose scene calls all
    succeed, the results shown are K images and the image in slot i is the
    one produced for the i-th non-blank prompt, in whatever order the K
    calls complete. *)
Theorem storyboard_results_follow_requests env s characterImageParts :
  let validPrompts := List.filter not_blank (storyboardPrompts s) in
  mode s = storyboard ->
  validPrompts <> [] ->
  encode_characters (fileToBase64 env) (characterImages s)
    = Ok characterImageParts ->
  schedule env ≡ₚ seq 0 (length validPrompts) ->
  (forall i p, validPrompts !! i = Some p ->
     exists image,
       (generateStoryboardScene (ai env) i p (aspectRatio s)
          characterImageParts).2 = Ok image) ->
  exists results,
    generatedImages (handleGenerate env s).2 = Some results
    /\ length results = length validPrompts
    /\ forall i p, validPrompts !! i = Some p ->
         exists image,
           results !! i = Some image
           /\ (generateStoryboardScene (ai env) i p (aspectRatio s)
                 characterImageParts).2 = Ok image.
Proof.
  intros validPrompts Hmode Hvalid Henc Hperm Hok.
  rewrite (handleGenerate_storyboard env s characterImageParts) by done.
  fold validPrompts. cbv zeta.
  destruct (all_ok_values
              (scene_calls (ai env) validPrompts (aspectRatio s)
                           characterImageParts).*2) as [vs Hvs].
  { intros i o. rewrite scene_calls_outcome.
    destruct (validPrompts !! i) as [p|] eqn:Hp; [|done].
    intros [= <-]. destruct (Hok i p Hp) as [image Himage]. by exists image. }
  assert (Hlen : length vs = length validPrompts).
  { rewrite <- (scene_calls_length (ai env) validPrompts (aspectRatio s)
                  characterImageParts), Hvs. by rewrite length_fmap. }
  rewrite Hvs, promise_all_fulfilled by (by rewrite Hlen).
  exists vs. split; [done|]. split; [done|].
  intros i p Hp.
  assert (Hi := scene_calls_outcome (ai env) validPrompts (aspectRatio s)
                  characterImageParts i).
  rewrite Hvs, list_lookup_fmap, Hp in Hi.
  destruct (vs !! i) as [image|]; [|done].
  exists image. split; [done|]. injection Hi as Hi. symmetry. exact Hi.
Qed.

Lemma storyboard_results_follow_requests_witness :
  exists results,
    generatedImages
      (handleGenerate SampleRuns.storyboard_env Sample.storyboard_state).2
    = Some results
    /\ length results
       = length (List.filter not_blank (storyboardPrompts Sample.storyboard_state))
    /\ forall i p,
         List.filter not_blank (storyboardPrompts Sample.storyboard_state) !! i
         = Some p ->
         exists image,
           results !! i = Some image
           /\ (generateStoryboardScene (ai SampleRuns.storyboard_env) i p
                 (aspectRatio Sample.storyboard_state) []).2 = Ok image.
Proof.
  apply (storyboard_results_follow_requests
           SampleRuns.storyboard_env Sample.storyboard_state []).
  - reflexivity.
  - discriminate.
  - reflexivity.
  - apply perm_swap.
  - intros [|[|i]] p; simpl; intros [= <-]; eexists; reflexivity.
Defined.

(** A scene call that fails does so with the error that names its scene. *)
Lemma scene_failure ai k p r imgs e :
  (generateStoryboardScene ai k p r imgs).2 = Throw e -> e = scene_failed p.
Proof.
  unfold generateStoryboardScene. simpl.
  destruct (generateContent ai k _) as [response|e0]; simpl; [|congruence].
  destruct (first_inline_data response) as [[b|]|e0]; simpl; congruence.
Qed.


Lemma scene_failed_message p : message (scene_failed p) <> [].
Proof. done. Qed.

(** Among the promises of a schedule, one of which rejects, there is one
    that rejects first. *)
Lemma first_failure_exists {A} (outcomes : list (result A)) schedule i e :
  i ∈ schedule ->
  outcomes !! i = Some (Throw e) ->
  exists pre j post e',
    schedule = pre ++ j :: post
    /\ outcomes !! j = Some (Throw e')
    /\ forall k e'', k ∈ pre -> outcomes !! k <> Some (Throw e'').
Proof.
  induction schedule as [|j schedule IH]; intros Hin Hfail.
  - by apply elem_of_nil in Hin.
  - destruct (outcomes !! j) as [[v|e']|] eqn:Hj.
    2:{ exists [], j, schedule, e'. split; [done|]. split; [done|].
        intros k e'' Hk. by apply elem_of_nil in Hk. }
    all: apply elem_of_cons in Hin as [->|Hin]; [congruence|].
    all: destruct (IH Hin Hfail) as (pre & j' & post & e' & -> & Hj' & Hpre).
    all: exists (j :: pre), j', post, e'; split; [done|]; split; [done|].
    all: intros k e'' [->|Hk]%elem_of_cons; [congruence|by apply Hpre].
Qed.

End Storyboard.

(** ** Failure of a fan-out *)

Section FanOutFailure.
Import GenAI GeminiService.

Lemma edit_outcomes_lookup ai request i :
  i < 4 ->
  map (fun k => generateContent ai k request) (seq 0 4) !! i
  = Some (generateContent ai i request).
Proof.
  intros Hi. do 4 (destruct i as [|i]; [done|]). lia.
Qed.

(** A storyboard whose scene call [i] is the first to fail ends with that
    scene's error on display and no image. *)
Lemma storyboard_first_failure env s characterImageParts pre i post p e :
  ImageGenerator.mode s = ImageGenerator.storyboard ->
  ImageGenerator.encode_characters (fileToBase64 env)
    (ImageGenerator.characterImages s) = Ok characterImageParts ->
  schedule env = pre ++ i :: post ->
  List.filter ImageGenerator.not_blank (ImageGenerator.storyboardPrompts s) !! i
    = Some p ->
  (generateStoryboardScene (ai env) i p (ImageGenerator.aspectRatio s)
     characterImageParts).2 = Throw e ->
  (forall j q e', j ∈ pre ->
     List.filter ImageGenerator.not_blank (ImageGenerator.storyboardPrompts s) !! j
       = Some q ->
     (generateStoryboardScene (ai env) j q (ImageGenerator.aspectRatio s)
        characterImageParts).2 <> Throw e') ->
  ImageGenerator.generatedImages (ImageGenerator.handleGenerate env s).2 = None
  /\ ImageGenerator.error (ImageGenerator.handleGenerate env s).2
     = Some (message (scene_failed p))
  /\ ImageGenerator.isLoading (ImageGenerator.handleGenerate env s).2 = false.
Proof.
  intros Hmode Henc Hsched Hp Hfail Hpre.
  rewrite (handleGenerate_storyboard env s characterImageParts);
    [|done| |done].
  2:{ intros Hnil. by rewrite Hnil in Hp. }
  cbv zeta. rewrite Hsched.
  rewrite (promise_all_first_failure _ pre i post e).
  - apply scene_failure in Hfail as ->. done.
  - rewrite scene_calls_outcome, Hp. simpl. by rewrite <- Hfail.
  - intros j e' Hj. rewrite scene_calls_outcome.
    destruct (_ !! j) as [q|] eqn:Hq; [|done].
    intros [= Hthrow]. by apply (Hpre j q e' Hj Hq).
Qed.

(** An edit, one of whose four calls fails, fails with its own fixed error. *)
Lemma edit_failure ai schedule prompt imageBase64 mimeType referenceImage i e :
  i ∈ schedule ->
  i < 4 ->
  generateContent ai i (edit_request prompt imageBase64 mimeType referenceImage)
    = Throw e ->
  (editImage ai schedule prompt imageBase64 mimeType referenceImage).2
  = Some (Throw editImage_failed).
Proof.
  intros Hin Hi Hfail. unfold editImage. cbv zeta.
  set (request := edit_request prompt imageBase64 mimeType referenceImage) in *.
  destruct (first_failure_exists
              (map (fun k => generateContent ai k request) (seq 0 4))
              schedule i e Hin) as (pre & j & post & e' & -> & Hj & Hpre).
  { rewrite edit_outcomes_lookup by done. by rewrite Hfail. }
  simpl snd. by rewrite (promise_all_first_failure _ pre j post e').
Qed.

(** X2. The four variations of an edit whose calls all return an image
    come back in the order of the calls, in whatever order the calls
    complete. *)
Theorem edit_variants_follow_calls ai schedule prompt imageBase64 mimeType
  referenceImage images :
  schedule ≡ₚ seq 0 4 ->
  length images = 4 ->
  (forall k image, images !! k = Some image ->
     exists response inline,
       generateContent ai k
         (edit_request prompt imageBase64 mimeType referenceImage) = Ok response
       /\ first_inline_data response = Ok (Some inline)
       /\ image = png_data_url (data inline)) ->
  (editImage ai schedule prompt imageBase64 mimeType referenceImage).2
  = Some (Ok images).
Proof.
  intros Hperm Hlen Hall. unfold editImage. cbv zeta.
  set (request := edit_request prompt imageBase64 mimeType referenceImage) in *.
  do 4 (destruct images as [|? images]; [done|]).
  destruct images; [|done].
  destruct (Hall 0 _ eq_refl) as (r0 & b0 & H0 & Hd0 & ->).
  destruct (Hall 1 _ eq_refl) as (r1 & b1 & H1 & Hd1 & ->).
  destruct (Hall 2 _ eq_refl) as (r2 & b2 & H2 & Hd2 & ->).
  destruct (Hall 3 _ eq_refl) as (r3 & b3 & H3 & Hd3 & ->).
  simpl snd. rewrite H0, H1, H2, H3.
  change [Ok r0; Ok r1; Ok r2; Ok r3] with (Ok <$> [r0; r1; r2; r3]).
  rewrite promise_all_fulfilled by done.
  simpl. by rewrite Hd0, Hd1, Hd2, Hd3.
Qed.

Lemma edit_variants_follow_calls_witness :
  (editImage Sample.ai_ok [3; 1; 0; 2] SampleRuns.edit_prompt (lit "QUJD")
     (lit "image/png") None).2
  = Some (Ok (map (fun k => png_data_url (Sample.bytes k)) (seq 0 4))).
Proof.
  apply (edit_variants_follow_calls Sample.ai_ok [3; 1; 0; 2]
           SampleRuns.edit_prompt (lit "QUJD") (lit "image/png") None).
  - transitivity [1; 3; 0; 2]; [apply perm_swap|].
    transitivity [1; 0; 3; 2]; [apply perm_skip, perm_swap|].
    transitivity [0; 1; 3; 2]; [apply perm_swap|].
    do 2 apply perm_skip. apply perm_swap.
  - reflexivity.
  - intros [|[|[|[|k]]]] image; simpl; intros [= <-].
    all: eexists; eexists; repeat split; reflexivity.
Defined.

(** C3, as the code has it. When a call of a fan-out fails, the operation
    fails and shows no image. A storyboard fails with the error of the scene
    call that failed first in completion order, which names that scene; an
    edit fails with one fixed error, whichever of its four calls failed. *)
Theorem fan_out_fails_as_a_whole :
  (forall env s characterImageParts i p e,
     let validPrompts :=
       List.filter ImageGenerator.not_blank (ImageGenerator.storyboardPrompts s) in
     let scene k q :=
       (generateStoryboardScene (ai env) k q (ImageGenerator.aspectRatio s)
          characterImageParts).2 in
     ImageGenerator.mode s = ImageGenerator.storyboard ->
     ImageGenerator.encode_characters (fileToBase64 env)
       (ImageGenerator.characterImages s) = Ok characterImageParts ->
     i ∈ schedule env ->
     validPrompts !! i = Some p ->
     scene i p = Throw e ->
     exists pre j post q,
       schedule env = pre ++ j :: post
       /\ validPrompts !! j = Some q
       /\ scene j q = Throw (scene_failed q)
       /\ (forall k r e', k ∈ pre -> validPrompts !! k = Some r ->
             scene k r <> Throw e')
       /\ ImageGenerator.generatedImages (ImageGenerator.handleGenerate env s).2
          = None
       /\ ImageGenerator.error (ImageGenerator.handleGenerate env s).2
          = Some (message (scene_failed q))
       /\ ImageGenerator.isLoading (ImageGenerator.handleGenerate env s).2
          = false)
  /\ (forall ai schedule prompt imageBase64 mimeType referenceImage i e,
        i ∈ schedule ->
        i < 4 ->
        generateContent ai i
          (edit_request prompt imageBase64 mimeType referenceImage) = Throw e ->
        (editImage ai schedule prompt imageBase64 mimeType referenceImage).2
        = Some (Throw editImage_failed)).
Proof.
  split.
  - intros env s parts i p e validPrompts scene Hmode Henc Hin Hp Hfail.
    destruct (first_failure_exists
                (ImageGenerator.scene_calls (ai env) validPrompts
                   (ImageGenerator.aspectRatio s) parts).*2
                (schedule env) i e Hin)
      as (pre & j & post & e' & Hsched & Hj & Hpre).
    { rewrite scene_calls_outcome, Hp. simpl. by rewrite <- Hfail. }
    rewrite scene_calls_outcome in Hj.
    destruct (validPrompts !! j) as [q|] eqn:Hq; [|done].
    injection Hj as Hj. fold (scene j q) in Hj.
    assert (He' := scene_failure _ _ _ _ _ _ Hj). subst e'.
    assert (Hpre' : forall k r e', k ∈ pre -> validPrompts !! k = Some r ->
              scene k r <> Throw e').
    { intros k r e' Hk Hr Hthrow. apply (Hpre k e' Hk).
      rewrite scene_calls_outcome, Hr. simpl. by rewrite <- Hthrow. }
    exists pre, j, post, q. do 4 (split; [done|]).
    by eapply storyboard_first_failure.
  - intros. by eapply edit_failure.
Qed.

Lemma fan_out_fails_as_a_whole_witness :
  (exists pre j post q,
     schedule SampleRuns.failing_env = pre ++ j :: post
     /\ List.filter ImageGenerator.not_blank
          (ImageGenerator.storyboardPrompts Sample.storyboard_state) !! j
        = Some q
     /\ (generateStoryboardScene (ai SampleRuns.failing_env) j q
           (ImageGenerator.aspectRatio Sample.storyboard_state) []).2
        = Throw (scene_failed q)
     /\ (forall k r e', k ∈ pre ->
           List.filter ImageGenerator.not_blank
             (ImageGenerator.storyboardPrompts Sample.storyboard_state) !! k
           = Some r ->
           (generateStoryboardScene (ai SampleRuns.failing_env) k r
              (ImageGenerator.aspectRatio Sample.storyboard_state) []).2
           <> Throw e')
     /\ ImageGenerator.generatedImages
          (ImageGenerator.handleGenerate SampleRuns.failing_env
             Sample.storyboard_state).2 = None
     /\ ImageGenerator.error
          (ImageGenerator.handleGenerate SampleRuns.failing_env
             Sample.storyboard_state).2
        = Some (message (scene_failed q))
     /\ ImageGenerator.isLoading
          (ImageGenerator.handleGenerate SampleRuns.failing_env
             Sample.storyboard_state).2 = false)
  /\ (editImage (Sample.ai_failing 0 Sample.quota) [2; 0; 1; 3]
        SampleRuns.edit_prompt (lit "QUJD") (lit "image/png") None).2
     = Some (Throw editImage_failed).
Proof.
  split.
  - apply (proj1 fan_out_fails_as_a_whole SampleRuns.failing_env
             Sample.storyboard_state [] 1 (lit "The orb opens")
             (scene_failed (lit "The orb opens"))).
    + reflexivity.
    + reflexivity.
    + right. left.
    + reflexivity.
    + reflexivity.
  - apply (proj2 fan_out_fails_as_a_whole (Sample.ai_failing 0 Sample.quota)
             [2; 0; 1; 3] SampleRuns.edit_prompt (lit "QUJD") (lit "image/png")
             None 0 Sample.quota).
    + right. left.
    + lia.
    + reflexivity.
Defined.

(** C3 does not hold as stated: the first failure an edit meets is the
    service's, and the edit fails with another error, its own. *)
Lemma edit_fails_with_its_own_error :
  promise_all SampleRuns.failing_edit_calls [0; 1; 2; 3]
    = Some (Throw Sample.quota)
  /\ SampleRuns.failing_edit.2 = Some (Throw editImage_failed)
  /\ editImage_failed <> Sample.quota.
Proof. split; [reflexivity|]. split; [reflexivity|discriminate]. Qed.

End FanOutFailure.

(** ** Single-image generation *)

Section SingleImage.
Import GenAI GeminiService.

(** C2, as the code has it. When the service returns no image,
    [generateImage] fails; when it returns one to three images where four
    were asked for, [generateImage] returns exactly those, in order. *)
Theorem generateImage_short_batch ai prompt aspectRatio response imgs :
  generateImages ai (images_request prompt aspectRatio) = Ok response ->
  generatedImages response = Some imgs ->
  length imgs < 4 ->
  (imgs = [] ->
     (generateImage ai prompt aspectRatio).2 = Throw generateImage_failed)
  /\ (imgs <> [] ->
        (generateImage ai prompt aspectRatio).2
        = Ok (map (fun img => png_data_url (imageBytes (image img))) imgs)).
Proof.
  intros Hresponse Himgs _. unfold generateImage. simpl.
  rewrite Hresponse. simpl. rewrite Himgs.
  split; intros Hcase.
  - by rewrite Hcase.
  - destruct imgs as [|img imgs]; [by destruct Hcase|done].
Qed.

Lemma generateImage_short_batch_witness :
  ([mkGeneratedImage (mkImage (Sample.bytes 0))] = [] ->
     (generateImage Sample.ai_short (lit "a cat") Ratio_1_1).2
     = Throw generateImage_failed)
  /\ ([mkGeneratedImage (mkImage (Sample.bytes 0))] <> [] ->
        (generateImage Sample.ai_short (lit "a cat") Ratio_1_1).2
        = Ok (map (fun img => png_data_url (imageBytes (image img)))
                  [mkGeneratedImage (mkImage (Sample.bytes 0))])).
Proof.
  apply (generateImage_short_batch Sample.ai_short (lit "a cat") Ratio_1_1
           (mkImagesResponse (Some [mkGeneratedImage (mkImage (Sample.bytes 0))]))).
  - reflexivity.
  - reflexivity.
  - simpl. lia.
Defined.

(** C2 does not hold as stated: a batch of one image is returned as it is. *)
Lemma generateImage_returns_a_short_batch :
  generateImages Sample.ai_short (images_request (lit "a cat") Ratio_1_1)
    = Ok (mkImagesResponse (Some [mkGeneratedImage (mkImage (Sample.bytes 0))]))
  /\ (generateImage Sample.ai_short (lit "a cat") Ratio_1_1).2
     = Ok [png_data_url (Sample.bytes 0)].
Proof. split; reflexivity. Qed.

End SingleImage.


(** ** The aspect ratio in the requests *)

Section RatioDirective.
Import GenAI GeminiService.

Lemma edit_request_texts prompt imageBase64 mimeType referenceImage :
  texts (GenerateContent (edit_request prompt imageBase64 mimeType referenceImage))
  = [prompt].
Proof. by destruct referenceImage. Qed.

Lemma scene_request_texts prompt r imgs :
  texts (GenerateContent (scene_request prompt r imgs))
  = [prompt ++ scene_directive r].
Proof.
  unfold scene_request, texts. simpl. rewrite omap_app.
  induction imgs as [|img imgs IH]; [done|]. simpl. exact IH.
Qed.

Lemma editImage_calls ai schedule prompt imageBase64 mimeType referenceImage c :
  c ∈ (editImage ai schedule prompt imageBase64 mimeType referenceImage).1 ->
  c = GenerateContent (edit_request prompt imageBase64 mimeType referenceImage).
Proof.
  unfold editImage. simpl. rewrite !elem_of_cons, elem_of_nil. tauto.
Qed.

(** The requests of an edit are those of the one [editImage] call, if
    the handler gets that far. *)
Lemma handleEdit_calls env s :
  (ImageEditor.handleEdit env s).1 = []
  \/ exists imageBase64 mimeType referenceImage,
       (ImageEditor.handleEdit env s).1
       = (editImage (ai env) (schedule env)
            (ImageEditor.finalPrompt (ImageEditor.prompt s)
                                     (ImageEditor.aspectRatio s))
            imageBase64 mimeType referenceImage).1.
Proof.
  unfold ImageEditor.handleEdit.
  destruct (ImageEditor.prompt s) as [|c0 p] eqn:Hp; [by left|].
  destruct (ImageEditor.originalImage s) as [orig|]; [|by left].
  cbv zeta.
  destruct (fileToBase64 env (ImageEditor.file orig)) as [b|e]; [|by left].
  destruct (ImageEditor.referenceImage s) as [ref|].
  - destruct (fileToBase64 env (ImageEditor.file ref)) as [b'|e]; [|by left].
    right. exists b, (type (ImageEditor.file orig)),
      (Some (mkBlob b' (type (ImageEditor.file ref)))).
    cbn [mbind result_bind]. by destruct (editImage _ _ _ _ _ _).
  - right. exists b, (type (ImageEditor.file orig)), None.
    cbn [mbind result_bind]. by destruct (editImage _ _ _ _ _ _).
Qed.

Lemma handleEdit_texts env s c :
  c ∈ (ImageEditor.handleEdit env s).1 ->
  texts c = [ImageEditor.finalPrompt (ImageEditor.prompt s)
                                     (ImageEditor.aspectRatio s)].
Proof.
  destruct (handleEdit_calls env s) as [-> | (b & m & r & ->)].
  - intros []%elem_of_nil.
  - intros ->%editImage_calls. apply edit_request_texts.
Qed.

(** C6, as the code has it. An edit sends the prompt unchanged when the
    ratio is "original" and with the ratio directive appended once for any
    other ratio; a storyboard scene, which has no "original" ratio, is sent
    with its directive appended once; a single-image generation sends the
    prompt unchanged and the ratio as a field of the request. *)
Theorem ratio_directive_per_flow prompt :
  ImageEditor.finalPrompt prompt ImageEditor.original = prompt
  /\ (forall r, ImageEditor.finalPrompt prompt (ImageEditor.ratio r)
                = prompt ++ ImageEditor.edit_directive r)
  /\ (forall env s c,
        ImageEditor.prompt s = prompt ->
        c ∈ (ImageEditor.handleEdit env s).1 ->
        texts c = [ImageEditor.finalPrompt prompt (ImageEditor.aspectRatio s)])
  /\ (forall ai k r imgs,
        (generateStoryboardScene ai k prompt r imgs).1
          = [GenerateContent (scene_request prompt r imgs)]
        /\ texts (GenerateContent (scene_request prompt r imgs))
           = [prompt ++ scene_directive r])
  /\ (forall ai r,
        (generateImage ai prompt r).1 = [GenerateImages (images_request prompt r)]
        /\ texts (GenerateImages (images_request prompt r)) = [prompt]
        /\ aspectRatio (images_request prompt r) = r).
Proof.
  split; [done|]. split; [done|]. split; [|split].
  - intros env s c <-. apply handleEdit_texts.
  - intros ai k r imgs. split; [done|]. apply scene_request_texts.
  - done.
Qed.

Lemma ratio_directive_per_flow_witness :
  texts SampleRuns.edit_call
  = [ImageEditor.finalPrompt SampleRuns.edit_prompt
       (ImageEditor.aspectRatio SampleRuns.editor_state)].
Proof.
  apply (proj1 (proj2 (proj2 (ratio_directive_per_flow SampleRuns.edit_prompt)))
           SampleRuns.edit_env SampleRuns.editor_state SampleRuns.edit_call).
  - reflexivity.
  - vm_compute. left.
Defined.

(** C6 does not hold as stated: with the ratio 16:9, a single-image
    generation sends the prompt as it is, and the ratio beside it. *)
Lemma single_generation_sends_no_directive :
  (generateImage Sample.ai_ok (lit "a cat") Ratio_16_9).1
  = [GenerateImages
       (mkImagesRequest (lit "imagen-4.0-generate-001") (lit "a cat") 4
                        (lit "image/png") Ratio_16_9)]
  /\ texts (GenerateImages (images_request (lit "a cat") Ratio_16_9))
     = [lit "a cat"].
Proof. split; reflexivity. Qed.

End RatioDirective.

(** ** Validation *)

Section Validation.
Import GenAI GeminiService.

Lemma filter_all_blank (prompts : list jsstring) :
  Forall (fun p => trim p = []) prompts ->
  List.filter ImageGenerator.not_blank prompts = [].
Proof.
  induction 1 as [|p prompts Hp _ IH]; [done|].
  simpl. unfold ImageGenerator.not_blank at 1. by rewrite Hp.
Qed.

(** C7. A submission with an empty prompt (single-image generation, edit)
    or with every scene prompt blank (storyboard) ends with a validation
    message and sends no request; a generation clears the images shown, an
    edit leaves them as they were. *)
Theorem invalid_submissions_send_nothing env :
  (forall s,
     ImageGenerator.mode s = ImageGenerator.single ->
     ImageGenerator.prompt s = [] ->
     (ImageGenerator.handleGenerate env s).1 = []
     /\ ImageGenerator.error (ImageGenerator.handleGenerate env s).2
        = Some (lit "Please enter a prompt.")
     /\ ImageGenerator.generatedImages (ImageGenerator.handleGenerate env s).2
        = None
     /\ ImageGenerator.isLoading (ImageGenerator.handleGenerate env s).2
        = false)
  /\ (forall s,
        ImageGenerator.mode s = ImageGenerator.storyboard ->
        Forall (fun p => trim p = []) (ImageGenerator.storyboardPrompts s) ->
        (ImageGenerator.handleGenerate env s).1 = []
        /\ ImageGenerator.error (ImageGenerator.handleGenerate env s).2
           = Some (lit "Please enter a prompt for at least one scene.")
        /\ ImageGenerator.generatedImages (ImageGenerator.handleGenerate env s).2
           = None
        /\ ImageGenerator.isLoading (ImageGenerator.handleGenerate env s).2
           = false)
  /\ (forall s,
        ImageEditor.prompt s = [] \/ ImageEditor.originalImage s = None ->
        (ImageEditor.handleEdit env s).1 = []
        /\ ImageEditor.error (ImageEditor.handleEdit env s).2
           = Some (lit "Please upload an image and provide an editing prompt.")
        /\ ImageEditor.editedImages (ImageEditor.handleEdit env s).2
           = ImageEditor.editedImages s
        /\ ImageEditor.isLoading (ImageEditor.handleEdit env s).2
           = ImageEditor.isLoading s).
Proof.
  split; [|split].
  - intros s Hmode Hprompt. unfold ImageGenerator.handleGenerate.
    by rewrite Hmode, Hprompt.
  - intros s Hmode Hblank. unfold ImageGenerator.handleGenerate.
    by rewrite Hmode, (filter_all_blank _ Hblank).
  - intros s Hcase. unfold ImageEditor.handleEdit.
    destruct Hcase as [-> | ->]; [done|].
    by destruct (ImageEditor.prompt s).
Qed.

Lemma invalid_submissions_send_nothing_witness :
  ((ImageGenerator.handleGenerate SampleRuns.edit_env
      SampleRuns.empty_generator).1 = []
   /\ ImageGenerator.error
        (ImageGenerator.handleGenerate SampleRuns.edit_env
           SampleRuns.empty_generator).2
      = Some (lit "Please enter a prompt.")
   /\ ImageGenerator.generatedImages
        (ImageGenerator.handleGenerate SampleRuns.edit_env
           SampleRuns.empty_generator).2 = None
   /\ ImageGenerator.isLoading
        (ImageGenerator.handleGenerate SampleRuns.edit_env
           SampleRuns.empty_generator).2 = false)
  /\ ((ImageGenerator.handleGenerate SampleRuns.edit_env
         SampleRuns.blank_storyboard).1 = []
      /\ ImageGenerator.error
           (ImageGenerator.handleGenerate SampleRuns.edit_env
              SampleRuns.blank_storyboard).2
         = Some (lit "Please enter a prompt for at least one scene.")
      /\ ImageGenerator.generatedImages
           (ImageGenerator.handleGenerate SampleRuns.edit_env
              SampleRuns.blank_storyboard).2 = None
      /\ ImageGenerator.isLoading
           (ImageGenerator.handleGenerate SampleRuns.edit_env
              SampleRuns.blank_storyboard).2 = false)
  /\ ((ImageEditor.handleEdit SampleRuns.edit_env SampleRuns.empty_editor).1
        = []
      /\ ImageEditor.error
           (ImageEditor.handleEdit SampleRuns.edit_env SampleRuns.empty_editor).2
         = Some (lit "Please upload an image and provide an editing prompt.")
      /\ ImageEditor.editedImages
           (ImageEditor.handleEdit SampleRuns.edit_env SampleRuns.empty_editor).2
         = ImageEditor.editedImages SampleRuns.empty_editor
      /\ ImageEditor.isLoading
           (ImageEditor.handleEdit SampleRuns.edit_env SampleRuns.empty_editor).2
         = ImageEditor.isLoading SampleRuns.empty_editor).
Proof.
  split; [|split].
  - apply (proj1 (invalid_submissions_send_nothing SampleRuns.edit_env)
             SampleRuns.empty_generator); reflexivity.
  - apply (proj1 (proj2 (invalid_submissions_send_nothing SampleRuns.edit_env))
             SampleRuns.blank_storyboard).
    + reflexivity.
    + repeat constructor.
  - apply (proj2 (proj2 (invalid_submissions_send_nothing SampleRuns.edit_env))
             SampleRuns.empty_editor).
    left. reflexivity.
Defined.

End Validation.

(** ** The chat session *)

Section Chat.
Import Chatbot.

Lemma loading_blocks s ev :
  isLoading s = true ->
  is_response ev = false ->
  messages (dispatch s ev) = messages s /\ isLoading (dispatch s ev) = true.
Proof.
  intros Hl Hev.
  destruct ev as [|value| |key|outcome]; simpl; try done;
    unfold input_disabled, button_disabled; by rewrite Hl.
Qed.

(** C4. While a request awaits its response, a submit (the send button or
    the Enter key) changes nothing, and the transcript stays as it is until
    the response arrives. *)
Theorem submit_while_awaiting_is_ignored s :
  isLoading s = true ->
  dispatch s ClickSend = s
  /\ (forall key, dispatch s (KeyPress key) = s /\ handleKeyPress key s = s)
  /\ (forall evs,
        Forall (fun ev => is_response ev = false) evs ->
        messages (run s evs) = messages s
        /\ length (messages (run s evs)) = length (messages s)
        /\ isLoading (run s evs) = true).
Proof.
  intros Hl. split; [|split].
  - simpl. unfold button_disabled. by rewrite Hl.
  - intros key. simpl. unfold input_disabled, handleKeyPress. rewrite Hl.
    by rewrite andb_false_r.
  - intros evs Hevs. revert s Hl.
    induction Hevs as [|ev evs Hev _ IH]; intros s Hl; [done|].
    destruct (loading_blocks s ev Hl Hev) as [Hm Hl'].
    unfold run in *. simpl. destruct (IH _ Hl') as (Hm' & _ & Hl'').
    by rewrite Hm', Hm.
Qed.

Lemma submit_while_awaiting_is_ignored_witness :
  dispatch SampleRuns.awaiting_chat ClickSend = SampleRuns.awaiting_chat
  /\ (forall key,
        dispatch SampleRuns.awaiting_chat (KeyPress key)
          = SampleRuns.awaiting_chat
        /\ handleKeyPress key SampleRuns.awaiting_chat
           = SampleRuns.awaiting_chat)
  /\ (forall evs,
        Forall (fun ev => is_response ev = false) evs ->
        messages (run SampleRuns.awaiting_chat evs)
          = messages SampleRuns.awaiting_chat
        /\ length (messages (run SampleRuns.awaiting_chat evs))
           = length (messages SampleRuns.awaiting_chat)
        /\ isLoading (run SampleRuns.awaiting_chat evs) = true).
Proof.
  apply (submit_while_awaiting_is_ignored SampleRuns.awaiting_chat).
  reflexivity.
Defined.

Lemma send_from_ready s input :
  phase s = Ready ->
  blank input = false ->
  run s [ChangeInput input; ClickSend]
  = mkState (chat s) (messages s ++ [mkMessage user input]) [] true
            (sent s ++ [input]) (S (pending s)).
Proof.
  unfold phase. intros Hready Hinput.
  destruct (chat s) as [c|] eqn:Hc; [|done].
  destruct (isLoading s) eqn:Hl; [done|].
  unfold run. simpl.
  unfold input_disabled, button_disabled, handleSendMessage, no_chat.
  rewrite Hl, Hc. simpl. by rewrite Hinput.
Qed.

(** C5. When the send call of a submitted message throws, the transcript
    gains, after the user's message, exactly one assistant message, the
    apology; the session is Ready again and takes the next message. *)
Theorem failed_send_leaves_an_apology s input e :
  phase s = Ready ->
  blank input = false ->
  let s1 := run s [ChangeInput input; ClickSend] in
  let s2 := dispatch s1 (Response (Throw e)) in
  phase s1 = AwaitingResponse
  /\ messages s1 = messages s ++ [mkMessage user input]
  /\ messages s2 = messages s1 ++ [apology]
  /\ role apology = model
  /\ text apology = lit "Sorry, I encountered an error. Please try again."
  /\ phase s2 = Ready
  /\ forall next,
       blank next = false ->
       messages (run s2 [ChangeInput next; ClickSend])
         = messages s2 ++ [mkMessage user next]
       /\ phase (run s2 [ChangeInput next; ClickSend]) = AwaitingResponse.
Proof.
  intros Hready Hinput s1 s2. subst s2 s1.
  rewrite (send_from_ready s input Hready Hinput).
  assert (Hc : exists c, chat s = Some c).
  { unfold phase in Hready. destruct (chat s); [by eexists|done]. }
  destruct Hc as [c Hc].
  repeat split; try done.
  - unfold phase. simpl. by rewrite Hc.
  - unfold phase. simpl. by rewrite Hc.
  - rewrite send_from_ready; [done| |done].
    unfold phase. simpl. by rewrite Hc.
  - rewrite send_from_ready; [|unfold phase; simpl; by rewrite Hc|done].
    unfold phase. simpl. by rewrite Hc.
Qed.

Lemma failed_send_leaves_an_apology_witness :
  let s1 := run SampleRuns.ready_chat [ChangeInput (lit "hello"); ClickSend] in
  let s2 := dispatch s1 (Response (Throw Sample.quota)) in
  phase s1 = AwaitingResponse
  /\ messages s1
     = messages SampleRuns.ready_chat ++ [mkMessage user (lit "hello")]
  /\ messages s2 = messages s1 ++ [apology]
  /\ role apology = model
  /\ text apology = lit "Sorry, I encountered an error. Please try again."
  /\ phase s2 = Ready
  /\ forall next,
       blank next = false ->
       messages (run s2 [ChangeInput next; ClickSend])
         = messages s2 ++ [mkMessage user next]
       /\ phase (run s2 [ChangeInput next; ClickSend]) = AwaitingResponse.
Proof.
  apply (failed_send_leaves_an_apology SampleRuns.ready_chat (lit "hello")
           Sample.quota); reflexivity.
Defined.

Lemma dispatch_appends s ev :
  messages (dispatch s ev) = messages s
  \/ (is_submit ev = true
      /\ messages (dispatch s ev)
         = messages s ++ [mkMessage user (userInput s)])
  \/ (exists outcome reply,
        ev = Response outcome
        /\ role reply = model
        /\ messages (dispatch s ev) = messages s ++ [reply]).
Proof.
  destruct ev as [|value| |key|outcome]; simpl.
  - by left.
  - destruct (input_disabled s); by left.
  - destruct (button_disabled s); [by left|].
    unfold handleSendMessage.
    destruct (blank (userInput s) || no_chat s); [by left|]. right. by left.
  - destruct (input_disabled s); [by left|].
    unfold handleKeyPress, handleSendMessage.
    destruct (bool_decide _ && _); [|by left].
    destruct (blank (userInput s) || no_chat s); [by left|]. right. by left.
  - unfold resume. destruct (pending s); [by left|].
    right. right. destruct outcome as [response_text|e]; simpl.
    + by exists (Ok response_text), (mkMessage model response_text).
    + by exists (Throw e), apology.
Qed.

Lemma dispatch_prefix s ev : messages s `prefix_of` messages (dispatch s ev).
Proof.
  destruct (dispatch_appends s ev)
    as [-> | [[_ ->] | (outcome & reply & _ & _ & ->)]].
  - done.
  - by apply prefix_app_r.
  - by apply prefix_app_r.
Qed.

(** C8. The transcript is append-only: an event leaves it as it is, or a
    submit appends the user's message to its end, or the arrival of a
    response appends an assistant message to its end; so the transcript at
    any time is a prefix of the transcript at any later time of the
    session. *)
Theorem transcript_is_append_only :
  (forall s ev,
     messages (dispatch s ev) = messages s
     \/ (is_submit ev = true
         /\ messages (dispatch s ev)
            = messages s ++ [mkMessage user (userInput s)])
     \/ (exists outcome reply,
           ev = Response outcome
           /\ role reply = model
           /\ messages (dispatch s ev) = messages s ++ [reply]))
  /\ (forall s evs, messages s `prefix_of` messages (run s evs))
  /\ (forall evs1 evs2,
        messages (run initial evs1)
          `prefix_of` messages (run initial (evs1 ++ evs2))).
Proof.
  assert (Hrun : forall s evs, messages s `prefix_of` messages (run s evs)).
  { intros s evs. revert s. induction evs as [|ev evs IH]; intros s; [done|].
    unfold run in *. simpl. etrans; [apply dispatch_prefix|apply IH]. }
  split; [apply dispatch_appends|]. split; [done|].
  intros evs1 evs2. unfold run. rewrite fold_left_app. apply Hrun.
Qed.

Lemma dispatch_in_flight s ev :
  in_flight_inv s -> in_flight_inv (dispatch s ev).
Proof.
  unfold in_flight_inv.
  intros [[Hl Hp] | [Hl Hp]];
    destruct ev as [|value| |key|outcome]; simpl;
    unfold input_disabled, button_disabled, handleKeyPress, handleSendMessage,
      resume;
    rewrite ?Hl, ?Hp; simpl; auto.
  all: repeat match goal with
       | |- context [if ?b then _ else _] =>
           destruct b; simpl; rewrite ?Hl, ?Hp; auto
       end.
  all: destruct outcome; simpl; auto.
Qed.

(** X1. At most one request is in flight in a session, and the component
    shows that it is loading exactly while one is. *)
Theorem one_request_in_flight evs :
  pending (run initial evs) <= 1
  /\ (isLoading (run initial evs) = true <-> pending (run initial evs) = 1).
Proof.
  assert (Hinv : forall s, in_flight_inv s -> in_flight_inv (run s evs)).
  { induction evs as [|ev evs IH]; intros s Hs; [done|].
    unfold run in *. simpl. apply IH. by apply dispatch_in_flight. }
  destruct (Hinv initial) as [[Hl Hp] | [Hl Hp]]; [by right| |]; rewrite Hl, Hp.
  all: split; [lia|split; done].
Qed.

End Chat.

(** ** Download names *)

Section Downloads.

Lemma trimStart_length s : length (trimStart s) <= length s.
Proof.
  induction s as [|c s IH]; simpl; [done|].
  destruct (is_space c); simpl; lia.
Qed.

Lemma trim_length s : length (trim s) <= length s.
Proof.
  unfold trim. rewrite length_reverse.
  etrans; [apply trimStart_length|]. rewrite length_reverse.
  apply trimStart_length.
Qed.

Lemma strip_symbols_length s : length (strip_symbols s) <= length s.
Proof. apply List.filter_length_le. Qed.

Lemma strip_symbols_chars s :
  Forall (fun c => is_alnum c || is_space c = true) (strip_symbols s).
Proof.
  unfold strip_symbols. apply Forall_forall. intros c Hc.
  apply list_elem_of_In, List.filter_In in Hc. tauto.
Qed.

Lemma collapse_from_length in_run s :
  length (collapse_from in_run s) <= length s.
Proof.
  revert in_run. induction s as [|c s IH]; intros in_run; simpl; [done|].
  pose proof (IH true). pose proof (IH false).
  destruct (is_space c); [destruct in_run|]; simpl; lia.
Qed.

Lemma collapse_from_chars in_run s :
  Forall (fun c => is_alnum c || is_space c = true) s ->
  Forall (fun c => (is_alnum c = true \/ c = underscore) /\ is_space c = false)
         (collapse_from in_run s).
Proof.
  intros Hs. revert in_run.
  induction Hs as [|c s Hc _ IH]; intros in_run; simpl; [done|].
  destruct (is_space c) eqn:Hsp.
  - destruct in_run; [apply IH|]. constructor; [|apply IH]. split; [by right|done].
  - constructor; [|apply IH]. rewrite orb_false_r in Hc. split; [by left|done].
Qed.

(** What the chain of string operations of a download leaves of a prompt. *)
Lemma cleaned_prompt n t :
  let cleaned := collapse_spaces (strip_symbols (trim (substring0 n t))) in
  length cleaned <= n
  /\ Forall (fun c => (is_alnum c = true \/ c = underscore)
                      /\ is_space c = false) cleaned.
Proof.
  split.
  - unfold collapse_spaces, substring0.
    etrans; [apply collapse_from_length|].
    etrans; [apply strip_symbols_length|].
    etrans; [apply trim_length|]. rewrite length_take. lia.
  - apply collapse_from_chars, strip_symbols_chars.
Qed.

Lemma not_blank_nonempty p : ImageGenerator.not_blank p = true -> p <> [].
Proof. by intros Hp ->. Qed.

(** C9, as the code has it. The name of a downloaded file is built from
    the prompt: its first 50 code units (30 in the editor), trimmed, without
    the code units that are no letter, digit or white space, each run of
    white space replaced by one underscore. Where nothing is left of it a
    fixed name stands in its place. The 1-based index and ".png" follow
    (after "_scene" for a storyboard), and the editor puts the name of the
    original file, up to its first dot, in front. *)
Theorem download_file_names imageUrl index :
  imageUrl <> [] ->
  let cleaned n t := collapse_spaces (strip_symbols (trim (substring0 n t))) in
  (forall s,
     ImageGenerator.mode s = ImageGenerator.single ->
     ImageGenerator.handleDownload s imageUrl index
     = Some (or_else (cleaned 50 (ImageGenerator.prompt s)) (lit "generated_image")
             ++ lit "_" ++ of_nat (index + 1) ++ lit ".png"))
  /\ (forall s p,
        ImageGenerator.mode s = ImageGenerator.storyboard ->
        List.filter ImageGenerator.not_blank
          (ImageGenerator.storyboardPrompts s) !! index = Some p ->
        ImageGenerator.storyboardPrompts s !! index = Some p ->
        ImageGenerator.handleDownload s imageUrl index
        = Some (or_else (cleaned 50 p) (lit "generated_image")
                ++ lit "_scene_" ++ of_nat (index + 1) ++ lit ".png"))
  /\ (forall s,
        ImageEditor.handleDownload s imageUrl index
        = Some (or_default
                  ((fun o => before_dot (name (ImageEditor.file o)))
                     <$> ImageEditor.originalImage s)
                  (lit "edited_image")
                ++ lit "_"
                ++ or_else (cleaned 30 (ImageEditor.prompt s)) (lit "edited")
                ++ lit "_" ++ of_nat (index + 1) ++ lit ".png"))
  /\ (forall n t,
        length (cleaned n t) <= n
        /\ Forall (fun c => (is_alnum c = true \/ c = underscore)
                            /\ is_space c = false) (cleaned n t)).
Proof.
  intros Hurl cleaned. split; [|split; [|split]].
  - intros s Hmode. unfold ImageGenerator.handleDownload. rewrite Hmode.
    by destruct imageUrl.
  - intros s p Hmode Hvalid Hrow. unfold ImageGenerator.handleDownload.
    rewrite Hmode, Hrow.
    assert (Hp : p <> []).
    { apply not_blank_nonempty.
      apply list_elem_of_lookup_2, list_elem_of_In, List.filter_In in Hvalid.
      tauto. }
    destruct imageUrl; [done|]. by destruct p.
  - intros s. unfold ImageEditor.handleDownload. by destruct imageUrl.
  - intros n t. apply cleaned_prompt.
Qed.

Lemma download_file_names_witness :
  ImageGenerator.handleDownload SampleRuns.hero_state (lit "data:image/png;base64,IMG0") 1
  = Some (or_else
            (collapse_spaces (strip_symbols (trim (substring0 50
               (ImageGenerator.prompt SampleRuns.hero_state)))))
            (lit "generated_image")
          ++ lit "_" ++ of_nat (1 + 1) ++ lit ".png").
Proof.
  apply (proj1 (download_file_names (lit "data:image/png;base64,IMG0") 1
                  ltac:(discriminate)) SampleRuns.hero_state).
  reflexivity.
Defined.

(** C9 does not hold as stated: of a prompt of symbols nothing is left, and
    the file is named after a fixed text instead. *)
Lemma download_name_of_symbols :
  ImageGenerator.handleDownload SampleRuns.symbols_state (lit "data:image/png;base64,IMG0") 0
    = Some (lit "generated_image_1.png")
  /\ Spec.file_name 50 (ImageGenerator.prompt SampleRuns.symbols_state) 0
     = lit "_1.png".
Proof. split; reflexivity. Qed.

End Downloads.

(** ** The scene list of a storyboard *)

Section Scenes.
Import ImageGenerator.

Lemma filter_indexed_after {A} (index k : nat) (xs : list A) :
  index < k ->
  filter_indexed (fun _ i => negb (Nat.eqb i index)) k xs = xs.
Proof.
  revert k. induction xs as [|x xs IH]; intros k Hk; simpl; [done|].
  destruct (Nat.eqb_spec k index) as [->|_]; [lia|]. simpl.
  by rewrite IH by lia.
Qed.

(** Removing by index takes away one entry at most. *)
Lemma filter_indexed_length {A} (index k : nat) (xs : list A) :
  length xs <= S (length (filter_indexed (fun _ i => negb (Nat.eqb i index)) k xs)).
Proof.
  revert k. induction xs as [|x xs IH]; intros k; simpl; [lia|].
  destruct (Nat.eqb_spec k index) as [->|_]; simpl.
  - rewrite filter_indexed_after by lia. lia.
  - specialize (IH (S k)). lia.
Qed.

(** The entry removed is the one at [index], as [delete] removes it. *)
Lemma filter_indexed_delete {A} (index k : nat) (xs : list A) :
  filter_indexed (fun _ i => negb (Nat.eqb i (k + index))) k xs
  = delete index xs.
Proof.
  revert index k. induction xs as [|x xs IH]; intros index k; simpl; [done|].
  destruct index as [|index].
  - rewrite Nat.add_0_r, Nat.eqb_refl. simpl.
    apply filter_indexed_after. lia.
  - destruct (Nat.eqb_spec k (k + S index)) as [|_]; [lia|]. simpl.
    f_equal. rewrite <- (IH index (S k)). f_equal.
    by replace (k + S index) with (S k + index) by lia.
Qed.

(** X4. Removing a scene from a list of more than one takes out the row at
    the index and keeps the others in their order. *)
Theorem remove_scene_deletes_row index s :
  1 < length (storyboardPrompts s) ->
  storyboardPrompts (handleRemoveScene index s)
  = delete index (storyboardPrompts s).
Proof.
  intros Hlen. unfold handleRemoveScene.
  destruct (Nat.ltb_spec 1 (length (storyboardPrompts s))) as [_|Hle]; [|lia].
  simpl. apply (filter_indexed_delete index 0).
Qed.

Lemma remove_scene_deletes_row_witness :
  storyboardPrompts (handleRemoveScene 1 Sample.storyboard_state)
  = delete 1 (storyboardPrompts Sample.storyboard_state).
Proof.
  apply (remove_scene_deletes_row 1 Sample.storyboard_state). simpl. lia.
Defined.

Lemma handleGenerate_keeps_scenes env s :
  storyboardPrompts (handleGenerate env s).2 = storyboardPrompts s.
Proof.
  unfold handleGenerate. destruct (mode s).
  - destruct (prompt s); [done|].
    destruct (GeminiService.generateImage _ _ _) as [calls [urls|e]]; done.
  - destruct (List.filter not_blank (storyboardPrompts s)); [done|].
    destruct (encode_characters _ _) as [imgs|e]; [|done]. simpl.
    destruct (promise_all _ _) as [[urls|e]|]; done.
Qed.

Lemma dispatch_keeps_a_scene s ev :
  1 <= length (storyboardPrompts s) ->
  1 <= length (storyboardPrompts (dispatch s ev)).
Proof.
  intros Hs. destruct ev as [value|index value| |index|m|r|env]; simpl; try done.
  - destruct (Nat.ltb index _); [|done]. simpl. by rewrite length_insert.
  - rewrite length_app. simpl. lia.
  - unfold handleRemoveScene.
    destruct (Nat.ltb_spec 1 (length (storyboardPrompts s))) as [Hlt|_]; [|done].
    simpl. pose proof (filter_indexed_length index 0 (storyboardPrompts s)). lia.
  - by rewrite handleGenerate_keeps_scenes.
Qed.

(** C10. The scene list starts with one empty scene, adding a scene appends
    exactly one entry, removing a scene changes nothing when the list has
    one entry, and so the list holds a scene in every state the form can
    reach. *)
Theorem storyboard_keeps_a_scene :
  storyboardPrompts initial = [[]]
  /\ (forall s,
        storyboardPrompts (handleAddScene s) = storyboardPrompts s ++ [[]]
        /\ length (storyboardPrompts (handleAddScene s))
           = S (length (storyboardPrompts s)))
  /\ (forall s index,
        length (storyboardPrompts s) = 1 -> handleRemoveScene index s = s)
  /\ (forall evs,
        1 <= length (storyboardPrompts (fold_left dispatch evs initial))).
Proof.
  split; [done|]. split; [|split].
  - intros s. split; [done|]. simpl. rewrite length_app. simpl. lia.
  - intros s index Hone. unfold handleRemoveScene. by rewrite Hone.
  - intros evs.
    assert (Hfrom : forall s, 1 <= length (storyboardPrompts s) ->
              1 <= length (storyboardPrompts (fold_left dispatch evs s))).
    { induction evs as [|ev evs IH]; intros s Hs; [done|].
      simpl. apply IH. by apply dispatch_keeps_a_scene. }
    apply Hfrom. simpl. lia.
Qed.

Lemma storyboard_keeps_a_scene_witness :
  handleRemoveScene 0 initial = initial.
Proof.
  apply (proj1 (proj2 (proj2 storyboard_keeps_a_scene)) initial 0).
  reflexivity.
Defined.

End Scenes.

(** ** Runs of the model *)

Section Runs.
Import GenAI GeminiService.

Example single_generation_run :
  (generateImage Sample.ai_ok (lit "a cat") Ratio_1_1).2
  = Ok (map (fun k => png_data_url (Sample.bytes k)) (seq 0 4)).
Proof. reflexivity. Qed.

Example storyboard_run :
  (ImageGenerator.handleGenerate SampleRuns.storyboard_env
     Sample.storyboard_state).2
  = ImageGenerator.mkState [] [lit "A hero discovers a glowing orb"; lit "  "; lit "The orb opens"]
      Ratio_16_9
      (Some [lit "data:image/png;base64,IMG0"; lit "data:image/png;base64,IMG1"])
      false None ImageGenerator.storyboard [None; None].
Proof. reflexivity. Qed.

(** One scene, one image: the result is that image, in slot 0. *)
Example one_scene_run :
  ImageGenerator.generatedImages
    (ImageGenerator.handleGenerate (mkEnv Sample.ai_ok Sample.read_ok [0])
       (ImageGenerator.setMode ImageGenerator.storyboard
          (ImageGenerator.setStoryboardPrompts
             [lit "A hero discovers a glowing orb"] ImageGenerator.initial))).2
  = Some [lit "data:image/png;base64,IMG0"].
Proof. reflexivity. Qed.

Example storyboard_requests :
  map texts
    (ImageGenerator.handleGenerate SampleRuns.storyboard_env
       Sample.storyboard_state).1
  = [[lit "A hero discovers a glowing orb. The image should have a 16:9 aspect ratio."];
     [lit "The orb opens. The image should have a 16:9 aspect ratio."]].
Proof. reflexivity. Qed.

Example storyboard_failure_run :
  ImageGenerator.error
    (ImageGenerator.handleGenerate SampleRuns.failing_env
       Sample.storyboard_state).2
  = Some (lit "Failed to generate scene: " ++ dquote ++ lit "The orb opens..."
          ++ dquote ++ lit ". Check console for details.").
Proof. reflexivity. Qed.

(** While calls have not completed, the component keeps loading. *)
Example storyboard_still_loading :
  (ImageGenerator.handleGenerate (mkEnv Sample.ai_ok Sample.read_ok [1])
     Sample.storyboard_state).2
  = ImageGenerator.mkState [] [lit "A hero discovers a glowing orb"; lit "  "; lit "The orb opens"]
      Ratio_16_9 None true None ImageGenerator.storyboard [None; None].
Proof. reflexivity. Qed.

Example edit_run :
  ImageEditor.handleEdit SampleRuns.edit_env SampleRuns.editor_state
  = ([SampleRuns.edit_call; SampleRuns.edit_call; SampleRuns.edit_call;
      SampleRuns.edit_call],
     ImageEditor.mkState SampleRuns.edit_prompt (ImageEditor.ratio Ratio_16_9)
       (Some SampleRuns.photo) None
       (Some [lit "data:image/png;base64,IMG0"; lit "data:image/png;base64,IMG1";
              lit "data:image/png;base64,IMG2"; lit "data:image/png;base64,IMG3"])
       false None).
Proof. reflexivity. Qed.

Example generator_download_name :
  ImageGenerator.handleDownload SampleRuns.hero_state
    (lit "data:image/png;base64,IMG1") 1
  = Some (lit "A_hero_discovers_a_glowing_orb_2.png").
Proof. reflexivity. Qed.

Example editor_download_name :
  ImageEditor.handleDownload SampleRuns.editor_state
    (lit "data:image/png;base64,IMG0") 0
  = Some (lit "holiday_make_the_sky_blue_1.png").
Proof. reflexivity. Qed.

(** The second image of the sample storyboard was made for its third row;
    its file is named after the second row, which is blank. *)
Example storyboard_download_reads_the_row :
  ImageGenerator.handleDownload Sample.storyboard_state
    (lit "data:image/png;base64,IMG1") 1
  = Some (lit "generated_image_scene_2.png").
Proof. reflexivity. Qed.

Example chat_run :
  Chatbot.messages
    (Chatbot.run SampleRuns.awaiting_chat
       [Chatbot.ClickSend; Chatbot.KeyPress (lit "Enter");
        Chatbot.Response (Ok (lit "Hi there"))])
  = [Chatbot.mkMessage Chatbot.user (lit "hello");
     Chatbot.mkMessage Chatbot.model (lit "Hi there")].
Proof. reflexivity. Qed.

Example scene_list_run :
  ImageGenerator.storyboardPrompts
    (fold_left ImageGenerator.dispatch
       [ImageGenerator.RemoveScene 0; ImageGenerator.AddScene;
        ImageGenerator.ChangeScene 1 (lit "b"); ImageGenerator.AddScene;
        ImageGenerator.RemoveScene 0; ImageGenerator.RemoveScene 5]
       ImageGenerator.initial)
  = [lit "b"; []].
Proof. reflexivity. Qed.

End Runs.

(** ** Decimal indices and the characters of names *)

Section NameFacts.

Lemma digits_inj d d' : digits d = digits d' -> d = d'.
Proof.
  revert d'. induction d as [|d IH|d IH|d IH|d IH|d IH|d IH|d IH|d IH|d IH|d IH];
    intros [|d'|d'|d'|d'|d'|d'|d'|d'|d'|d']; simpl; intros Heq;
    try discriminate; try reflexivity;
    injection Heq as Heq; f_equal; by apply IH.
Qed.

Lemma of_nat_inj n m : of_nat n = of_nat m -> n = m.
Proof.
  unfold of_nat. intros Heq%digits_inj.
  by apply DecimalNat.Unsigned.to_uint_inj.
Qed.

Lemma digits_are_digits d : forallb is_digit (digits d) = true.
Proof. induction d; simpl; auto. Qed.

Lemma object_url_inj n m : Browser.object_url n = Browser.object_url m -> n = m.
Proof.
  unfold Browser.object_url. intros Heq%app_inv_head. by apply of_nat_inj.
Qed.

(** Two lists that agree, and begin with a run of [P] ended by a code unit
    that is not [P], begin with the same run. *)
Lemma head_run_unique (P : N -> bool) l1 l2 x y r1 r2 :
  forallb P l1 = true -> forallb P l2 = true ->
  P x = false -> P y = false ->
  l1 ++ x :: r1 = l2 ++ y :: r2 -> l1 = l2.
Proof.
  intros H1 H2 Hx Hy. revert l2 H2.
  induction l1 as [|c l1 IH]; intros [|c' l2] H2 Heq; simpl in *.
  - done.
  - injection Heq as -> _. apply andb_prop in H2 as [H2 _]. congruence.
  - injection Heq as -> _. apply andb_prop in H1 as [H1 _]. congruence.
  - injection Heq as -> Heq. apply andb_prop in H1 as [_ H1].
    apply andb_prop in H2 as [_ H2]. f_equal. by apply IH.
Qed.

(** The same for a run at the end. *)
Lemma tail_run_unique (P : N -> bool) a b x y d d' :
  forallb P d = true -> forallb P d' = true ->
  P x = false -> P y = false ->
  a ++ x :: d = b ++ y :: d' -> d = d'.
Proof.
  intros Hd Hd' Hx Hy Heq.
  apply (f_equal reverse) in Heq.
  rewrite !reverse_app, !reverse_cons, <- !app_assoc in Heq. simpl in Heq.
  assert (Hrev : forall l, forallb P l = true -> forallb P (reverse l) = true).
  { intros l Hl. apply forallb_forall. intros c Hc.
    apply (proj1 (forallb_forall P l) Hl).
    apply (proj1 (list_elem_of_In l c)). apply elem_of_reverse.
    by apply (proj2 (list_elem_of_In (reverse l) c)). }
  rewrite <- (reverse_involutive d), <- (reverse_involutive d'). f_equal.
  apply (head_run_unique P _ _ x y (reverse a) (reverse b)); auto.
Qed.

(** Names that end in an underscore, an index and ".png" are equal only
    when the indices are. *)
Lemma indexed_names_differ (a b : jsstring) i j :
  a ++ lit "_" ++ of_nat (i + 1) ++ lit ".png"
  = b ++ lit "_" ++ of_nat (j + 1) ++ lit ".png" ->
  i = j.
Proof.
  intros Heq. rewrite !(app_assoc _ _ (lit ".png")), !(app_assoc a), !(app_assoc b) in Heq.
  apply app_inv_tail in Heq. rewrite <- !app_assoc in Heq.
  change (lit "_") with [95%N] in Heq. simpl in Heq.
  assert (of_nat (i + 1) = of_nat (j + 1)) as Hij%of_nat_inj; [|lia].
  apply (tail_run_unique is_digit a b 95%N 95%N); try done;
    apply digits_are_digits.
Qed.



End NameFacts.

(** ** More on download names *)

Section DownloadNames.


Lemma generator_download_shape s c0 imageUrl index :
  ImageGenerator.handleDownload s (c0 :: imageUrl) index
  = Some (or_else
            (collapse_spaces (strip_symbols (trim (substring0 50
               match ImageGenerator.mode s with
               | ImageGenerator.single => ImageGenerator.prompt s
               | ImageGenerator.storyboard =>
                   or_default (ImageGenerator.storyboardPrompts s !! index)
                              (lit "storyboard_scene")
               end))))
            (lit "generated_image")
          ++ match ImageGenerator.mode s with
             | ImageGenerator.single => lit "_" ++ of_nat (index + 1)
             | ImageGenerator.storyboard => lit "_scene_" ++ of_nat (index + 1)
             end
          ++ lit ".png").
Proof. reflexivity. Qed.



(** X6. Two images of one batch are never saved under the same name: the
    names the generator and the editor give to different indices differ. *)
Theorem download_names_differ_by_index imageUrl i j :
  imageUrl <> [] ->
  i <> j ->
  (forall s,
     ImageGenerator.handleDownload s imageUrl i
       <> ImageGenerator.handleDownload s imageUrl j)
  /\ (forall s,
        ImageEditor.handleDownload s imageUrl i
          <> ImageEditor.handleDownload s imageUrl j).
Proof.
  intros Hurl Hij. destruct imageUrl as [|c0 imageUrl]; [done|].
  split; intros s Heq; apply Hij.
  - rewrite !generator_download_shape in Heq. apply (inj Some) in Heq.
    destruct (ImageGenerator.mode s).
    + rewrite <- !app_assoc in Heq. by apply indexed_names_differ in Heq.
    + change (lit "_scene_") with (lit "_scene" ++ lit "_") in Heq.
      rewrite <- !app_assoc in Heq.
      rewrite !(app_assoc _ (lit "_scene")) in Heq.
      by apply indexed_names_differ in Heq.
  - unfold ImageEditor.handleDownload in Heq. apply (inj Some) in Heq.
    rewrite !(app_assoc _ (lit "_") (or_else _ _ ++ _)) in Heq.
    rewrite !(app_assoc _ (or_else _ _)) in Heq.
    by apply indexed_names_differ in Heq.
Qed.

Lemma download_names_differ_by_index_witness :
  lit "data:image/png;base64,IMG0" <> []
  /\ 0 <> 11
  /\ ImageGenerator.handleDownload Sample.storyboard_state
       (lit "data:image/png;base64,IMG0") 0
     <> ImageGenerator.handleDownload Sample.storyboard_state
          (lit "data:image/png;base64,IMG0") 11.
Proof.
  split; [discriminate|]. split; [lia|].
  apply (proj1 (download_names_differ_by_index
                  (lit "data:image/png;base64,IMG0") 0 11
                  ltac:(discriminate) ltac:(lia))
           Sample.storyboard_state).
Defined.

End DownloadNames.


(** ** More on Promise.all *)

Section PromiseAllSound.
Context {A : Type}.
Implicit Types (st : PromiseAll.state A) (outcomes : list (result A)).

Lemma filled_values outcomes (l : list (option A)) (vs : list A) :
  length l = length outcomes ->
  (forall i v, l !! i = Some (Some v) -> outcomes !! i = Some (Ok v)) ->
  mapM id l = Some vs ->
  outcomes = Ok <$> vs.
Proof.
  intros Hlen Hl Hm. apply mapM_Some_1 in Hm.
  assert (Hlen' := Forall2_length _ _ _ Hm).
  apply list_eq. intros i. rewrite list_lookup_fmap.
  destruct (vs !! i) as [v|] eqn:Hv; simpl.
  - destruct (Forall2_lookup_r _ _ _ _ _ Hm Hv) as (o & Ho & Hid).
    simpl in Hid. subst o. by apply Hl.
  - apply lookup_ge_None. apply lookup_ge_None in Hv. lia.
Qed.

Lemma sound_init outcomes :
  PromiseAll.sound outcomes (PromiseAll.init (length outcomes)).
Proof.
  unfold PromiseAll.sound. simpl. split; [by rewrite length_replicate|].
  split.
  - intros i v Hi. apply lookup_replicate in Hi as [? _]. done.
  - destruct outcomes; [|done]. by intros vs [= <-].
Qed.

Lemma sound_settle outcomes st i :
  PromiseAll.sound outcomes st ->
  PromiseAll.sound outcomes (PromiseAll.settle outcomes st i).
Proof.
  intros (Hlen & Hvals & Hs). unfold PromiseAll.settle.
  destruct (outcomes !! i) as [[v|e]|] eqn:Hi; [| |done].
  - unfold PromiseAll.on_fulfilled.
    destruct (PromiseAll.values st !! i) as [[w|]|] eqn:Hslot; try done.
    assert (Hvals' : forall j w, <[i := Some v]> (PromiseAll.values st) !! j
                       = Some (Some w) -> outcomes !! j = Some (Ok w)).
    { intros j w. destruct (decide (i = j)) as [<-|Hne].
      - rewrite list_lookup_insert_eq by (by eapply lookup_lt_Some).
        congruence.
      - rewrite list_lookup_insert_ne by done. apply Hvals. }
    unfold PromiseAll.sound. simpl.
    split; [by rewrite length_insert|]. split; [done|].
    destruct (PromiseAll.settled st) as [o|]; [done|].
    destruct (Nat.pred (PromiseAll.remaining st)); [|done].
    intros vs Hvs. destruct (mapM id _) as [vs'|] eqn:Hm; [|done].
    injection Hvs as <-.
    apply (filled_values outcomes (<[i := Some v]> (PromiseAll.values st)));
      [by rewrite length_insert|done|done].
  - split; [done|]. split; [done|]. simpl.
    destruct (PromiseAll.settled st); [done|]. by intros vs [=].
Qed.

(** An aggregate that fulfils holds the value of every promise, in the
    order of the promises, whatever the schedule was. *)
Lemma promise_all_fulfilled_inv outcomes schedule (vs : list A) :
  promise_all outcomes schedule = Some (Ok vs) -> outcomes = Ok <$> vs.
Proof.
  unfold promise_all, PromiseAll.run.
  assert (Hfold : forall st, PromiseAll.sound outcomes st ->
            PromiseAll.sound outcomes
              (fold_left (PromiseAll.settle outcomes) schedule st)).
  { induction schedule as [|i schedule IH]; intros st Hst; [done|].
    simpl. apply IH. by apply sound_settle. }
  destruct (Hfold _ (sound_init outcomes)) as (_ & _ & Hs). apply Hs.
Qed.

(** Either every promise fulfils or one of them rejects. *)
Lemma all_ok_or_failure outcomes :
  (forall i o, outcomes !! i = Some o -> exists v, o = Ok v)
  \/ (exists i e, outcomes !! i = Some (Throw e)).
Proof.
  induction outcomes as [|[v|e] outcomes IH].
  - left. by intros i o.
  - destruct IH as [Hall | (i & e & Hi)].
    + left. intros [|i] o; simpl; [|apply Hall]. intros [= <-]. by exists v.
    + right. by exists (S i), e.
  - right. by exists 0, e.
Qed.

(** Once every promise has completed, the aggregate has settled. *)
Lemma promise_all_settles outcomes schedule :
  schedule ≡ₚ seq 0 (length outcomes) ->
  exists o, promise_all outcomes schedule = Some o.
Proof.
  intros Hperm. destruct (all_ok_or_failure outcomes) as [Hall | (i & e & Hi)].
  - destruct (all_ok_values outcomes Hall) as [vs ->].
    exists (Ok vs). apply promise_all_fulfilled.
    by rewrite length_fmap in Hperm.
  - assert (Hin : i ∈ schedule).
    { rewrite Hperm. apply elem_of_seq. apply lookup_lt_Some in Hi. lia. }
    destruct (first_failure_exists outcomes schedule i e Hin Hi)
      as (pre & j & post & e' & -> & Hj & Hpre).
    exists (Throw e'). by apply promise_all_first_failure.
Qed.

Lemma map_throwing_Ok {B} (f : A -> result B) xs ys :
  map_throwing f xs = Ok ys -> Forall2 (fun x y => f x = Ok y) xs ys.
Proof.
  revert ys. induction xs as [|x xs IH]; intros ys; simpl.
  - intros [= <-]. constructor.
  - destruct (f x) as [y|e] eqn:Hx; simpl; [|done].
    destruct (map_throwing f xs) as [ys'|e]; simpl; [|done].
    intros [= <-]. constructor; [done|]. by apply IH.
Qed.

End PromiseAllSound.

(** ** What a generation shows *)

Section Generation.
Import GenAI GeminiService ImageGenerator.

Lemma generateImage_result ai prompt r urls :
  (generateImage ai prompt r).2 = Ok urls <->
  exists response imgs,
    generateImages ai (images_request prompt r) = Ok response
    /\ GenAI.generatedImages response = Some imgs
    /\ imgs <> []
    /\ urls = map (fun img => png_data_url (imageBytes (image img))) imgs.
Proof.
  unfold generateImage. cbv zeta. simpl snd. split.
  - destruct (generateImages ai _) as [response|e]; simpl; [|done].
    destruct (GenAI.generatedImages response) as [[|img imgs]|] eqn:Himgs;
      simpl; try done.
    intros [= <-]. by exists response, (img :: imgs).
  - intros (response & imgs & -> & Himgs & Hne & ->). simpl.
    rewrite Himgs. by destruct imgs.
Qed.

Lemma generateImage_failure ai prompt r e :
  (generateImage ai prompt r).2 = Throw e -> e = generateImage_failed.
Proof.
  unfold generateImage. cbv zeta. simpl snd.
  destruct (generateImages ai _) as [response|e0]; simpl; [|congruence].
  destruct (GenAI.generatedImages response) as [[|img imgs]|]; simpl; congruence.
Qed.

Lemma handleGenerate_single env s :
  mode s = single ->
  prompt s <> [] ->
  handleGenerate env s
  = ([GenerateImages (images_request (prompt s) (aspectRatio s))],
     finish (generateImage (ai env) (prompt s) (aspectRatio s)).2
       (setGeneratedImages None (setError None (setIsLoading true s)))).
Proof.
  intros Hmode Hprompt. unfold handleGenerate. rewrite Hmode.
  by destruct (prompt s).
Qed.

(** X7. In single mode a non-empty prompt, blank or not, is sent as one
    request. Images are shown exactly when the service returns a list with
    at least one image, and they are the data URLs of all of its images in
    order; otherwise the error of [generateImage] is shown. *)
Theorem single_generation_result env s :
  mode s = single ->
  prompt s <> [] ->
  (handleGenerate env s).1
    = [GenerateImages (images_request (prompt s) (aspectRatio s))]
  /\ isLoading (handleGenerate env s).2 = false
  /\ (forall urls,
        generatedImages (handleGenerate env s).2 = Some urls <->
        exists response imgs,
          generateImages (ai env) (images_request (prompt s) (aspectRatio s))
            = Ok response
          /\ GenAI.generatedImages response = Some imgs
          /\ imgs <> []
          /\ urls = map (fun img => png_data_url (imageBytes (image img))) imgs)
  /\ (generatedImages (handleGenerate env s).2 = None ->
      error (handleGenerate env s).2 = Some (message generateImage_failed)).
Proof.
  intros Hmode Hprompt. rewrite (handleGenerate_single env s Hmode Hprompt).
  split; [done|]. cbn [fst snd].
  destruct (generateImage (ai env) (prompt s) (aspectRatio s)).2
    as [urls0|e] eqn:Hres.
  - split; [done|]. split; [|done]. intros urls. simpl.
    split.
    + intros [= <-]. by apply generateImage_result.
    + intros Hex%generateImage_result. rewrite Hres in Hex.
      by injection Hex as ->.
  - split; [done|]. assert (He := generateImage_failure _ _ _ _ Hres).
    subst e. split; [|done]. intros urls. simpl. split; [done|].
    intros Hex. apply generateImage_result in Hex. by rewrite Hres in Hex.
Qed.

Lemma single_generation_result_witness :
  (handleGenerate SampleRuns.edit_env
     (setPrompt (lit "  ") initial)).1
    = [GenerateImages (images_request (lit "  ") Ratio_16_9)]
  /\ isLoading (handleGenerate SampleRuns.edit_env
                 (setPrompt (lit "  ") initial)).2 = false
  /\ (forall urls,
        generatedImages (handleGenerate SampleRuns.edit_env
                           (setPrompt (lit "  ") initial)).2 = Some urls <->
        exists response imgs,
          generateImages (ai SampleRuns.edit_env)
            (images_request (lit "  ") Ratio_16_9) = Ok response
          /\ GenAI.generatedImages response = Some imgs
          /\ imgs <> []
          /\ urls = map (fun img => png_data_url (imageBytes (image img))) imgs)
  /\ (generatedImages (handleGenerate SampleRuns.edit_env
                         (setPrompt (lit "  ") initial)).2 = None ->
      error (handleGenerate SampleRuns.edit_env
               (setPrompt (lit "  ") initial)).2
      = Some (message generateImage_failed)).
Proof.
  apply (single_generation_result SampleRuns.edit_env
           (setPrompt (lit "  ") initial)).
  - reflexivity.
  - discriminate.
Defined.

(** X8. Whatever the order of completion, the images a storyboard shows
    are one per non-blank scene prompt, and the image in slot i is the one
    its scene call returned for the i-th such prompt. *)
Theorem storyboard_shows_what_its_scenes_returned env s urls :
  mode s = storyboard ->
  generatedImages (handleGenerate env s).2 = Some urls ->
  exists characterImageParts,
    encode_characters (fileToBase64 env) (characterImages s)
      = Ok characterImageParts
    /\ length urls = length (List.filter not_blank (storyboardPrompts s))
    /\ forall i p,
         List.filter not_blank (storyboardPrompts s) !! i = Some p ->
         exists image,
           urls !! i = Some image
           /\ (generateStoryboardScene (ai env) i p (aspectRatio s)
                 characterImageParts).2 = Ok image.
Proof.
  intros Hmode. unfold handleGenerate. rewrite Hmode.
  destruct (List.filter not_blank (storyboardPrompts s)) as [|p0 ps] eqn:Hvalid;
    [done|].
  destruct (encode_characters _ _) as [parts|err]; [|done].
  cbn [snd].
  destruct (promise_all _ _) as [[vs|e]|] eqn:Hall; [|done|done].
  intros Hshown. assert (vs = urls) as -> by (by injection Hshown).
  clear Hshown. exists parts. split; [done|].
  apply promise_all_fulfilled_inv in Hall.
  change ((scene_calls (ai env) (p0 :: ps) (aspectRatio s) parts).*2
          = Ok <$> urls) in Hall.
  split.
  - rewrite <- (scene_calls_length (ai env) (p0 :: ps) (aspectRatio s) parts).
    by rewrite Hall, length_fmap.
  - intros i p Hp.
    assert (Hi := scene_calls_outcome (ai env) (p0 :: ps) (aspectRatio s)
                    parts i).
    rewrite Hall, list_lookup_fmap, Hp in Hi.
    destruct (urls !! i) as [image|]; [|done].
    exists image. split; [done|]. injection Hi as Hi. symmetry. exact Hi.
Qed.

Lemma storyboard_shows_what_its_scenes_returned_witness :
  exists characterImageParts,
    encode_characters (fileToBase64 SampleRuns.storyboard_env)
      (characterImages Sample.storyboard_state) = Ok characterImageParts
    /\ length [lit "data:image/png;base64,IMG0"; lit "data:image/png;base64,IMG1"]
       = length (List.filter not_blank (storyboardPrompts Sample.storyboard_state))
    /\ forall i p,
         List.filter not_blank (storyboardPrompts Sample.storyboard_state) !! i
           = Some p ->
         exists image,
           [lit "data:image/png;base64,IMG0"; lit "data:image/png;base64,IMG1"]
             !! i = Some image
           /\ (generateStoryboardScene (ai SampleRuns.storyboard_env) i p
                 (aspectRatio Sample.storyboard_state)
                 characterImageParts).2 = Ok image.
Proof.
  apply (storyboard_shows_what_its_scenes_returned SampleRuns.storyboard_env
           Sample.storyboard_state).
  - reflexivity.
  - reflexivity.
Defined.

End Generation.

(** ** What a storyboard sends *)

Section StoryboardRequests.
Import GenAI GeminiService ImageGenerator.

Lemma fan_out_requests {P} (g : nat -> P -> list Call * result jsstring)
  (h : P -> Call) (l : list P) :
  (forall k p, (g k p).1 = [h p]) ->
  concat (map fst (imap g l)) = map h l.
Proof.
  revert g. induction l as [|p l IH]; intros g Hg; [done|].
  simpl. rewrite Hg. simpl. f_equal. apply IH. intros k q. apply Hg.
Qed.

(** The character images that are set, in slot order. *)
Lemma encode_characters_parts read files parts :
  encode_characters read files = Ok parts ->
  Forall2 (fun file part => read file = Ok (data part) /\ mimeType part = type file)
          (omap id files) parts.
Proof.
  revert parts. induction files as [|[file|] files IH]; intros parts; simpl.
  - intros [= <-]. constructor.
  - destruct (read file) as [base64|e] eqn:Hread; simpl; [|done].
    destruct (encode_characters read files) as [rest|e]; simpl; [|done].
    intros [= <-]. constructor; [done|]. by apply IH.
  - apply IH.
Qed.

(** The first file that cannot be read ends the encoding with its error. *)
Lemma encode_characters_failure read files err :
  encode_characters read files = Throw err <->
  exists pre file post,
    files = pre ++ Some file :: post
    /\ read file = Throw err
    /\ forall f, Some f ∈ pre -> exists base64, read f = Ok base64.
Proof.
  split.
  - induction files as [|[file|] files IH]; simpl; [done| |].
    + destruct (read file) as [base64|e] eqn:Hread; simpl.
      * destruct (encode_characters read files) as [rest|e] eqn:Hrest;
          simpl; [done|].
        intros [= ->].
        destruct (IH eq_refl) as (pre & f & post & -> & Hf & Hpre).
        exists (Some file :: pre), f, post. split; [done|]. split; [done|].
        intros f' [[= ->]|Hin]%elem_of_cons; [by exists base64|by apply Hpre].
      * intros [= ->]. exists [], file, files. split; [done|]. split; [done|].
        intros f' Hin. by apply elem_of_nil in Hin.
    + intros Hfail. destruct (IH Hfail) as (pre & f & post & -> & Hf & Hpre).
      exists (None :: pre), f, post. split; [done|]. split; [done|].
      intros f' [[=]|Hin]%elem_of_cons. by apply Hpre.
  - intros (pre & file & post & -> & Hfile & Hpre).
    induction pre as [|[f|] pre IH]; simpl.
    + by rewrite Hfile.
    + destruct (Hpre f) as [base64 ->]; [left|]. simpl.
      rewrite IH; [done|]. intros f' Hin. apply Hpre. by right.
    + apply IH. intros f' Hin. apply Hpre. by right.
Qed.

Lemma inline_parts (imgs : list Blob) :
  map (fun img => InlineData (mkBlob (data img) (mimeType img))) imgs
  = map InlineData imgs.
Proof. induction imgs as [|[d m] imgs IH]; [done|]. simpl. by rewrite IH. Qed.

(** X9. A storyboard sends one request per non-blank scene prompt, in the
    order of the rows, whatever becomes of the calls. Each request carries
    one inline part per character image that is set, in slot order, with
    the file's base64 data and type, and then the scene's text. *)
Theorem storyboard_requests_follow_rows env s characterImageParts :
  mode s = storyboard ->
  encode_characters (fileToBase64 env) (characterImages s)
    = Ok characterImageParts ->
  (handleGenerate env s).1
    = map (fun p => GenerateContent
                      (mkContentRequest (lit "gemini-2.5-flash-image")
                         (map InlineData characterImageParts
                          ++ [Text (p ++ scene_directive (aspectRatio s))])
                         [IMAGE]))
          (List.filter not_blank (storyboardPrompts s))
  /\ Forall2 (fun file part =>
                fileToBase64 env file = Ok (data part)
                /\ mimeType part = type file)
             (omap id (characterImages s)) characterImageParts.
Proof.
  intros Hmode Henc. split; [|by apply encode_characters_parts].
  unfold handleGenerate. rewrite Hmode.
  destruct (List.filter not_blank (storyboardPrompts s)) as [|p0 ps]; [done|].
  rewrite Henc. cbn [fst]. unfold scene_calls.
  apply fan_out_requests. intros k p. unfold generateStoryboardScene.
  cbn [fst]. unfold scene_request. by rewrite inline_parts.
Qed.

Lemma storyboard_requests_follow_rows_witness :
  (handleGenerate SampleRuns.failing_env Sample.storyboard_state).1
    = map (fun p => GenerateContent
                      (mkContentRequest (lit "gemini-2.5-flash-image")
                         (map InlineData []
                          ++ [Text (p ++ scene_directive
                                           (aspectRatio Sample.storyboard_state))])
                         [IMAGE]))
          (List.filter not_blank (storyboardPrompts Sample.storyboard_state))
  /\ Forall2 (fun file part =>
                fileToBase64 SampleRuns.failing_env file = Ok (data part)
                /\ mimeType part = type file)
             (omap id (characterImages Sample.storyboard_state)) [].
Proof.
  apply (storyboard_requests_follow_rows SampleRuns.failing_env
           Sample.storyboard_state []); reflexivity.
Defined.

(** X10. When a character image cannot be read, a storyboard sends no
    request: it ends with the error of the first unreadable file in slot
    order (or the fixed text, if that error has no message) and shows no
    image. *)
Theorem unreadable_character_stops_storyboard env s pre file post err :
  mode s = storyboard ->
  List.filter not_blank (storyboardPrompts s) <> [] ->
  characterImages s = pre ++ Some file :: post ->
  fileToBase64 env file = Throw err ->
  (forall f, Some f ∈ pre -> exists base64, fileToBase64 env f = Ok base64) ->
  (handleGenerate env s).1 = []
  /\ error (handleGenerate env s).2
     = Some (or_else (message err) unexpected_error)
  /\ generatedImages (handleGenerate env s).2 = None
  /\ isLoading (handleGenerate env s).2 = false.
Proof.
  intros Hmode Hvalid Hfiles Hfile Hpre.
  assert (Henc : encode_characters (fileToBase64 env) (characterImages s)
                 = Throw err).
  { apply encode_characters_failure. by exists pre, file, post. }
  unfold handleGenerate. rewrite Hmode.
  destruct (List.filter not_blank (storyboardPrompts s)); [done|].
  by rewrite Henc.
Qed.

Lemma unreadable_character_stops_storyboard_witness :
  (handleGenerate SampleForms.unreadable_env SampleForms.cast_state).1 = []
  /\ error (handleGenerate SampleForms.unreadable_env SampleForms.cast_state).2
     = Some (or_else (message (mkError (lit "The file could not be read.")))
                     unexpected_error)
  /\ generatedImages
       (handleGenerate SampleForms.unreadable_env SampleForms.cast_state).2
     = None
  /\ isLoading
       (handleGenerate SampleForms.unreadable_env SampleForms.cast_state).2
     = false.
Proof.
  apply (unreadable_character_stops_storyboard SampleForms.unreadable_env
           SampleForms.cast_state [Some SampleForms.portrait]
           SampleForms.broken []).
  - reflexivity.
  - discriminate.
  - reflexivity.
  - reflexivity.
  - intros f Hf. apply list_elem_of_singleton in Hf. injection Hf as ->.
    by exists (lit "QUJD").
Defined.

End StoryboardRequests.

(** ** How a generation ends *)

Section GenerationOutcome.
Import GenAI GeminiService ImageGenerator.

Lemma or_else_nonempty a b : b <> [] -> or_else a b <> [].
Proof. by destruct a. Qed.

Lemma finish_shape outcome s1 :
  isLoading (finish outcome s1) = false
  /\ prompt (finish outcome s1) = prompt s1
  /\ storyboardPrompts (finish outcome s1) = storyboardPrompts s1
  /\ aspectRatio (finish outcome s1) = aspectRatio s1
  /\ mode (finish outcome s1) = mode s1
  /\ characterImages (finish outcome s1) = characterImages s1
  /\ match outcome with
     | Ok urls =>
         generatedImages (finish outcome s1) = Some urls
         /\ error (finish outcome s1) = error s1
     | Throw err =>
         generatedImages (finish outcome s1) = generatedImages s1
         /\ exists text, error (finish outcome s1) = Some text /\ text <> []
     end.
Proof.
  destruct outcome as [urls|err]; repeat split; try done.
  simpl. eexists. split; [done|]. by apply or_else_nonempty.
Qed.

Lemma storyboard_results_nonempty env ps r parts vs :
  ps <> [] ->
  promise_all (scene_calls (ai env) ps r parts).*2 (schedule env) = Some (Ok vs) ->
  vs <> [].
Proof.
  intros Hps Hall%promise_all_fulfilled_inv.
  assert (Hlen := scene_calls_length (ai env) ps r parts).
  rewrite Hall, length_fmap in Hlen. intros ->. by destruct ps.
Qed.

(** X11. A generation changes nothing but what it shows. It ends in one of
    three ways: still loading with nothing shown (a storyboard whose calls
    have not all completed), or not loading with a non-empty list of images
    and no error, or not loading with a non-empty error text and no
    image. *)
Theorem generation_outcome env s :
  (prompt (handleGenerate env s).2 = prompt s
   /\ storyboardPrompts (handleGenerate env s).2 = storyboardPrompts s
   /\ aspectRatio (handleGenerate env s).2 = aspectRatio s
   /\ mode (handleGenerate env s).2 = mode s
   /\ characterImages (handleGenerate env s).2 = characterImages s)
  /\ ((isLoading (handleGenerate env s).2 = true
       /\ error (handleGenerate env s).2 = None
       /\ generatedImages (handleGenerate env s).2 = None
       /\ mode s = storyboard)
      \/ (isLoading (handleGenerate env s).2 = false
          /\ error (handleGenerate env s).2 = None
          /\ exists urls,
               generatedImages (handleGenerate env s).2 = Some urls
               /\ urls <> [])
      \/ (isLoading (handleGenerate env s).2 = false
          /\ generatedImages (handleGenerate env s).2 = None
          /\ exists text,
               error (handleGenerate env s).2 = Some text /\ text <> [])).
Proof.
  set (s1 := setGeneratedImages None (setError None (setIsLoading true s))).
  assert (Hend : forall outcome,
    (forall urls, outcome = Ok urls -> urls <> []) ->
    (prompt (finish outcome s1) = prompt s
     /\ storyboardPrompts (finish outcome s1) = storyboardPrompts s
     /\ aspectRatio (finish outcome s1) = aspectRatio s
     /\ mode (finish outcome s1) = mode s
     /\ characterImages (finish outcome s1) = characterImages s)
    /\ ((isLoading (finish outcome s1) = true
         /\ error (finish outcome s1) = None
         /\ generatedImages (finish outcome s1) = None
         /\ mode s = storyboard)
        \/ (isLoading (finish outcome s1) = false
            /\ error (finish outcome s1) = None
            /\ exists urls,
                 generatedImages (finish outcome s1) = Some urls /\ urls <> [])
        \/ (isLoading (finish outcome s1) = false
            /\ generatedImages (finish outcome s1) = None
            /\ exists text, error (finish outcome s1) = Some text /\ text <> []))).
  { intros outcome Hne.
    destruct (finish_shape outcome s1) as (Hl & ? & ? & ? & ? & ? & Hshown).
    split; [done|]. right. destruct outcome as [urls|err].
    - left. destruct Hshown as [Hg He]. split; [done|]. split; [done|].
      exists urls. split; [done|]. by apply Hne.
    - right. destruct Hshown as [Hg He]. done. }
  unfold handleGenerate. fold s1. destruct (mode s) eqn:Hmode.
  - destruct (prompt s) as [|c p] eqn:Hprompt.
    + split; [done|]. right. right. split; [done|]. split; [done|].
      by eexists.
    + change (generateImage (ai env) (c :: p) (aspectRatio s))
        with ([GenerateImages (images_request (c :: p) (aspectRatio s))],
              (generateImage (ai env) (c :: p) (aspectRatio s)).2).
      cbn [snd]. apply Hend. intros urls Hok.
      apply generateImage_result in Hok as (? & imgs & _ & _ & Hne & ->).
      by destruct imgs.
  - destruct (List.filter not_blank (storyboardPrompts s)) as [|p0 ps] eqn:Hvalid.
    + split; [done|]. right. right. split; [done|]. split; [done|].
      by eexists.
    + destruct (encode_characters _ _) as [parts|err]; cbn [snd].
      * destruct (promise_all _ _) as [outcome|] eqn:Hall.
        -- apply Hend. intros urls ->.
           by apply (storyboard_results_nonempty env (p0 :: ps) (aspectRatio s)
                       parts urls).
        -- split; [done|]. by left.
      * apply Hend. by intros urls.
Qed.



Lemma blank_nonempty p : blank p = false -> p <> [].
Proof. by intros Hp ->. Qed.

Lemma all_blank_filter prompts :
  forallb blank prompts = true <-> List.filter not_blank prompts = [].
Proof.
  induction prompts as [|p prompts IH]; simpl; [done|].
  unfold blank at 1. destruct (not_blank p); simpl; [done|]. exact IH.
Qed.

(** X13. The Generate button and the validation of the handler. For a
    storyboard they agree: the button is disabled exactly when no scene
    prompt is left after the blank ones are dropped. In single mode the
    button asks more (a prompt that is not blank) than the handler (a
    prompt that is not empty). So a click on the enabled button passes the
    validation, and sends a request if the character images can be read. *)
Theorem generate_button_and_validation env s :
  isLoading s = false ->
  (mode s = storyboard ->
     (isGenerateDisabled s = true
      <-> List.filter not_blank (storyboardPrompts s) = []))
  /\ (mode s = single -> isGenerateDisabled s = false -> prompt s <> [])
  /\ (isGenerateDisabled s = false ->
      forall characterImageParts,
        encode_characters (fileToBase64 env) (characterImages s)
          = Ok characterImageParts ->
        (handleGenerate env s).1 <> []).
Proof.
  intros Hl. unfold isGenerateDisabled. rewrite Hl. simpl. split; [|split].
  - intros ->. apply all_blank_filter.
  - intros ->. apply blank_nonempty.
  - intros Hbutton parts Henc. unfold handleGenerate.
    destruct (mode s).
    + apply blank_nonempty in Hbutton. by destruct (prompt s).
    + destruct (List.filter not_blank (storyboardPrompts s)) as [|p0 ps] eqn:Hv.
      * apply all_blank_filter in Hv. congruence.
      * by rewrite Henc.
Qed.

Lemma generate_button_and_validation_witness :
  (mode Sample.storyboard_state = storyboard ->
     (isGenerateDisabled Sample.storyboard_state = true
      <-> List.filter not_blank (storyboardPrompts Sample.storyboard_state) = []))
  /\ (mode Sample.storyboard_state = single ->
      isGenerateDisabled Sample.storyboard_state = false ->
      prompt Sample.storyboard_state <> [])
  /\ (isGenerateDisabled Sample.storyboard_state = false ->
      forall characterImageParts,
        encode_characters (fileToBase64 SampleRuns.storyboard_env)
          (characterImages Sample.storyboard_state) = Ok characterImageParts ->
        (handleGenerate SampleRuns.storyboard_env Sample.storyboard_state).1
        <> []).
Proof.
  apply (generate_button_and_validation SampleRuns.storyboard_env
           Sample.storyboard_state).
  reflexivity.
Defined.

End GenerationOutcome.

(** ** What an edit sends and shows *)

Section EditOutcome.
Import GenAI GeminiService.

(** The URL an edit makes of a response, or its failure. *)
Lemma edit_url_Ok response url :
  (found ← first_inline_data response;
   match found with
   | Some inline => Ok (png_data_url (data inline))
   | None =>
       Throw (mkError (lit "A sub-request for an edited image failed to return data."))
   end) = Ok url ->
  exists inline,
    first_inline_data response = Ok (Some inline)
    /\ url = png_data_url (data inline).
Proof.
  destruct (first_inline_data response) as [[inline|]|e]; simpl; try done.
  intros [= <-]. by exists inline.
Qed.

(** X14. An edit always sends four copies of one request. When it returns
    images, in whatever order its calls completed, they are exactly four,
    and the image in slot k is the data URL of the inline data with which
    call k answered. When it fails, it fails with its one fixed error. *)
Theorem editImage_all_or_nothing ai schedule prompt imageBase64 mimeType
  referenceImage :
  (editImage ai schedule prompt imageBase64 mimeType referenceImage).1
    = replicate 4
        (GenerateContent (edit_request prompt imageBase64 mimeType referenceImage))
  /\ (forall urls,
        (editImage ai schedule prompt imageBase64 mimeType referenceImage).2
          = Some (Ok urls) ->
        length urls = 4
        /\ forall k, k < 4 ->
             exists response inline,
               generateContent ai k
                 (edit_request prompt imageBase64 mimeType referenceImage)
                 = Ok response
               /\ first_inline_data response = Ok (Some inline)
               /\ urls !! k = Some (png_data_url (data inline)))
  /\ (forall e,
        (editImage ai schedule prompt imageBase64 mimeType referenceImage).2
          = Some (Throw e) ->
        e = editImage_failed).
Proof.
  split; [done|]. unfold editImage. cbv zeta. cbn [snd].
  set (request := edit_request prompt imageBase64 mimeType referenceImage).
  destruct (promise_all _ schedule) as [awaited|] eqn:Hall; simpl;
    [|split; intros; discriminate].
  split.
  - intros urls Hok. destruct awaited as [responses|e0]; simpl in Hok; [|done].
    apply promise_all_fulfilled_inv in Hall.
    destruct (map_throwing _ responses) as [imageUrls|e0] eqn:Hmap;
      simpl in Hok; [|done].
    destruct (Nat.eqb_spec (length imageUrls) 4) as [Hlen|_]; [|done].
    injection Hok as <-. split; [done|].
    apply map_throwing_Ok in Hmap.
    intros k Hk.
    assert (Hcall : map (fun k => generateContent ai k request) (seq 0 4) !! k
                    = Some (generateContent ai k request))
      by (by apply edit_outcomes_lookup).
    rewrite Hall, list_lookup_fmap in Hcall.
    destruct (responses !! k) as [response|] eqn:Hresponse; [|done].
    injection Hcall as Hcall.
    destruct (Forall2_lookup_l _ _ _ _ _ Hmap Hresponse) as (url & Hurl & Hf).
    apply edit_url_Ok in Hf as (inline & Hinline & ->).
    by exists response, inline.
  - intros e He. destruct awaited as [responses|e0]; simpl in He.
    + destruct (map_throwing _ responses) as [imageUrls|e1]; simpl in He.
      * destruct (Nat.eqb (length imageUrls) 4); simpl in He; congruence.
      * congruence.
    + congruence.
Qed.

Lemma editImage_all_or_nothing_witness :
  length (map (fun k => png_data_url (Sample.bytes k)) (seq 0 4)) = 4
  /\ forall k, k < 4 ->
       exists response inline,
         generateContent Sample.ai_ok k
           (edit_request SampleRuns.edit_prompt (lit "QUJD") (lit "image/png") None)
           = Ok response
         /\ first_inline_data response = Ok (Some inline)
         /\ map (fun k => png_data_url (Sample.bytes k)) (seq 0 4) !! k
            = Some (png_data_url (data inline)).
Proof.
  apply (proj1 (proj2 (editImage_all_or_nothing Sample.ai_ok [3; 1; 0; 2]
                         SampleRuns.edit_prompt (lit "QUJD") (lit "image/png")
                         None))).
  reflexivity.
Defined.

(** What [handleEdit] does once the prompt and the image are there and the
    files have been read. *)
Lemma handleEdit_ready env s c p o imageBase64 referenceImagePart :
  ImageEditor.prompt s = c :: p ->
  ImageEditor.originalImage s = Some o ->
  fileToBase64 env (ImageEditor.file o) = Ok imageBase64 ->
  match ImageEditor.referenceImage s with
  | Some r =>
      exists refBase64,
        fileToBase64 env (ImageEditor.file r) = Ok refBase64
        /\ referenceImagePart = Some (mkBlob refBase64 (type (ImageEditor.file r)))
  | None => referenceImagePart = None
  end ->
  ImageEditor.handleEdit env s
  = let s1 := ImageEditor.setEditedImages None
                (ImageEditor.setError None (ImageEditor.setIsLoading true s)) in
    let edit :=
      editImage (ai env) (schedule env)
        (ImageEditor.finalPrompt (c :: p) (ImageEditor.aspectRatio s))
        imageBase64 (type (ImageEditor.file o)) referenceImagePart in
    (edit.1,
     match edit.2 with
     | None => s1
     | Some (Ok imageUrls) =>
         ImageEditor.setIsLoading false
           (ImageEditor.setEditedImages (Some imageUrls) s1)
     | Some (Throw err) => ImageEditor.failed err s1
     end).
Proof.
  intros Hp Ho Hb Hr. unfold ImageEditor.handleEdit. rewrite Hp, Ho, Hb.
  cbv zeta. destruct (ImageEditor.referenceImage s) as [r|].
  - destruct Hr as (refBase64 & -> & ->). cbn [mbind result_bind].
    by destruct (editImage _ _ _ _ _ _).
  - subst referenceImagePart. cbn [mbind result_bind].
    by destruct (editImage _ _ _ _ _ _).
Qed.

(** X15. An edit whose files are read sends four requests, each with the
    image to edit first, the style reference after it if there is one, and
    the final prompt last; they are sent whatever becomes of them. *)
Theorem edit_requests env s o imageBase64 :
  ImageEditor.prompt s <> [] ->
  ImageEditor.originalImage s = Some o ->
  fileToBase64 env (ImageEditor.file o) = Ok imageBase64 ->
  let text :=
    Text (ImageEditor.finalPrompt (ImageEditor.prompt s)
                                  (ImageEditor.aspectRatio s)) in
  let image := InlineData (mkBlob imageBase64 (type (ImageEditor.file o))) in
  match ImageEditor.referenceImage s with
  | None =>
      (ImageEditor.handleEdit env s).1
      = replicate 4 (GenerateContent
          (mkContentRequest (lit "gemini-2.5-flash-image") [image; text] [IMAGE]))
  | Some r =>
      forall refBase64,
        fileToBase64 env (ImageEditor.file r) = Ok refBase64 ->
        (ImageEditor.handleEdit env s).1
        = replicate 4 (GenerateContent
            (mkContentRequest (lit "gemini-2.5-flash-image")
               [image;
                InlineData (mkBlob refBase64 (type (ImageEditor.file r)));
                text]
               [IMAGE]))
  end.
Proof.
  intros Hp Ho Hb text image. subst text image.
  destruct (ImageEditor.prompt s) as [|c p] eqn:Hprompt; [done|].
  destruct (ImageEditor.referenceImage s) as [r|] eqn:Hr.
  - intros refBase64 Hrb.
    rewrite (handleEdit_ready env s c p o imageBase64
               (Some (mkBlob refBase64 (type (ImageEditor.file r))))); try done.
    rewrite Hr. by exists refBase64.
  - rewrite (handleEdit_ready env s c p o imageBase64 None); try done.
    by rewrite Hr.
Qed.

Lemma edit_requests_witness :
  (ImageEditor.handleEdit SampleRuns.edit_env SampleRuns.editor_state).1
  = replicate 4 (GenerateContent
      (mkContentRequest (lit "gemini-2.5-flash-image")
         [InlineData (mkBlob (lit "QUJD")
            (type (ImageEditor.file SampleRuns.photo)));
          Text (ImageEditor.finalPrompt
                  (ImageEditor.prompt SampleRuns.editor_state)
                  (ImageEditor.aspectRatio SampleRuns.editor_state))]
         [IMAGE])).
Proof.
  apply (edit_requests SampleRuns.edit_env SampleRuns.editor_state
           SampleRuns.photo (lit "QUJD")).
  - discriminate.
  - reflexivity.
  - reflexivity.
Defined.

(** X16. When the image to edit, or the style reference, cannot be read,
    an edit sends no request: it ends with the error of the read (or the
    fixed text, if that error has no message) and shows no image. *)
Theorem unreadable_file_stops_edit env s o err :
  ImageEditor.prompt s <> [] ->
  ImageEditor.originalImage s = Some o ->
  (fileToBase64 env (ImageEditor.file o) = Throw err
   \/ exists imageBase64 r,
        fileToBase64 env (ImageEditor.file o) = Ok imageBase64
        /\ ImageEditor.referenceImage s = Some r
        /\ fileToBase64 env (ImageEditor.file r) = Throw err) ->
  (ImageEditor.handleEdit env s).1 = []
  /\ ImageEditor.error (ImageEditor.handleEdit env s).2
     = Some (or_else (message err) unexpected_error)
  /\ ImageEditor.editedImages (ImageEditor.handleEdit env s).2 = None
  /\ ImageEditor.isLoading (ImageEditor.handleEdit env s).2 = false.
Proof.
  intros Hp Ho Hcase. unfold ImageEditor.handleEdit. rewrite Ho.
  destruct (ImageEditor.prompt s) as [|c p]; [done|]. cbv zeta.
  destruct Hcase as [-> | (b & r & -> & -> & ->)]; done.
Qed.

Lemma unreadable_file_stops_edit_witness :
  (ImageEditor.handleEdit SampleForms.unreadable_env
     SampleForms.referenced_editor).1 = []
  /\ ImageEditor.error
       (ImageEditor.handleEdit SampleForms.unreadable_env
          SampleForms.referenced_editor).2
     = Some (or_else (message (mkError (lit "The file could not be read.")))
                     unexpected_error)
  /\ ImageEditor.editedImages
       (ImageEditor.handleEdit SampleForms.unreadable_env
          SampleForms.referenced_editor).2 = None
  /\ ImageEditor.isLoading
       (ImageEditor.handleEdit SampleForms.unreadable_env
          SampleForms.referenced_editor).2 = false.
Proof.
  apply (unreadable_file_stops_edit SampleForms.unreadable_env
           SampleForms.referenced_editor SampleRuns.photo).
  - discriminate.
  - reflexivity.
  - right.
    exists (lit "QUJD"), (ImageEditor.mkUpload SampleForms.broken (lit "blob:7")).
    by repeat split.
Defined.

End EditOutcome.

(** ** How an edit ends *)

Section EditEnds.
Import GenAI GeminiService.

Lemma editImage_four ai schedule prompt imageBase64 mimeType referenceImage urls :
  (editImage ai schedule prompt imageBase64 mimeType referenceImage).2
    = Some (Ok urls) ->
  length urls = 4.
Proof.
  unfold editImage. cbv zeta. cbn [snd].
  destruct (promise_all _ schedule) as [[responses|e0]|]; simpl; try done.
  destruct (map_throwing _ responses) as [imageUrls|e0]; simpl; [|done].
  destruct (Nat.eqb_spec (length imageUrls) 4) as [Hlen|_]; [|done].
  by intros [= <-].
Qed.

Lemma editImage_settles ai schedule prompt imageBase64 mimeType referenceImage :
  schedule ≡ₚ seq 0 4 ->
  exists outcome,
    (editImage ai schedule prompt imageBase64 mimeType referenceImage).2
    = Some outcome.
Proof.
  intros Hperm. unfold editImage. cbv zeta. cbn [snd].
  destruct (promise_all_settles
              (map (fun k => generateContent ai k
                      (edit_request prompt imageBase64 mimeType referenceImage))
                   (seq 0 4)) schedule Hperm) as [awaited ->].
  simpl. by eexists.
Qed.

(** The four ways in which an edit can end. *)
Lemma edit_end_cases s1 outcome :
  ImageEditor.isLoading s1 = true ->
  ImageEditor.error s1 = None ->
  ImageEditor.editedImages s1 = None ->
  (forall urls, outcome = Some (Ok urls) -> length urls = 4) ->
  let s' :=
    match outcome with
    | None => s1
    | Some (Ok imageUrls) =>
        ImageEditor.setIsLoading false
          (ImageEditor.setEditedImages (Some imageUrls) s1)
    | Some (Throw err) => ImageEditor.failed err s1
    end in
  (ImageEditor.isLoading s' = true /\ ImageEditor.error s' = None
   /\ ImageEditor.editedImages s' = None)
  \/ (ImageEditor.isLoading s' = false /\ ImageEditor.error s' = None
      /\ exists urls, ImageEditor.editedImages s' = Some urls /\ length urls = 4)
  \/ (ImageEditor.isLoading s' = false /\ ImageEditor.editedImages s' = None
      /\ exists text, ImageEditor.error s' = Some text /\ text <> []).
Proof.
  intros Hl He Hi Hfour. destruct outcome as [[urls|err]|]; simpl.
  - right. left. split; [done|]. split; [done|]. exists urls.
    split; [done|]. by apply Hfour.
  - right. right. split; [done|]. split; [done|]. eexists. split; [done|].
    by apply or_else_nonempty.
  - by left.
Qed.

(** X17. An edit changes nothing but what it shows. It ends in one of four
    ways: refused for want of a prompt or an image, with the message shown
    beside whatever was shown before; or still loading with nothing shown;
    or not loading with exactly four images and no error; or not loading
    with a non-empty error text and no image. *)
Theorem edit_outcome env s :
  (ImageEditor.prompt (ImageEditor.handleEdit env s).2 = ImageEditor.prompt s
   /\ ImageEditor.aspectRatio (ImageEditor.handleEdit env s).2
      = ImageEditor.aspectRatio s
   /\ ImageEditor.originalImage (ImageEditor.handleEdit env s).2
      = ImageEditor.originalImage s
   /\ ImageEditor.referenceImage (ImageEditor.handleEdit env s).2
      = ImageEditor.referenceImage s)
  /\ (((ImageEditor.prompt s = [] \/ ImageEditor.originalImage s = None)
       /\ (ImageEditor.handleEdit env s).1 = []
       /\ ImageEditor.error (ImageEditor.handleEdit env s).2
          = Some (lit "Please upload an image and provide an editing prompt.")
       /\ ImageEditor.editedImages (ImageEditor.handleEdit env s).2
          = ImageEditor.editedImages s
       /\ ImageEditor.isLoading (ImageEditor.handleEdit env s).2
          = ImageEditor.isLoading s)
      \/ (ImageEditor.isLoading (ImageEditor.handleEdit env s).2 = true
          /\ ImageEditor.error (ImageEditor.handleEdit env s).2 = None
          /\ ImageEditor.editedImages (ImageEditor.handleEdit env s).2 = None)
      \/ (ImageEditor.isLoading (ImageEditor.handleEdit env s).2 = false
          /\ ImageEditor.error (ImageEditor.handleEdit env s).2 = None
          /\ exists urls,
               ImageEditor.editedImages (ImageEditor.handleEdit env s).2
                 = Some urls
               /\ length urls = 4)
      \/ (ImageEditor.isLoading (ImageEditor.handleEdit env s).2 = false
          /\ ImageEditor.editedImages (ImageEditor.handleEdit env s).2 = None
          /\ exists text,
               ImageEditor.error (ImageEditor.handleEdit env s).2 = Some text
               /\ text <> [])).
Proof.
  destruct (ImageEditor.prompt s) as [|c p] eqn:Hp.
  { unfold ImageEditor.handleEdit. rewrite Hp. split; [by rewrite <- Hp|].
    left. repeat split; auto. }
  destruct (ImageEditor.originalImage s) as [o|] eqn:Ho.
  2:{ unfold ImageEditor.handleEdit. rewrite Hp, Ho.
      split; [by rewrite <- Hp, <- Ho|]. left. repeat split; auto. }
  set (s1 := ImageEditor.setEditedImages None
               (ImageEditor.setError None (ImageEditor.setIsLoading true s))).
  assert (Hfail : forall err,
            ImageEditor.handleEdit env s = ([], ImageEditor.failed err s1) ->
            ImageEditor.prompt s = c :: p ->
            ImageEditor.originalImage s = Some o ->
            (ImageEditor.prompt (ImageEditor.handleEdit env s).2 = c :: p
             /\ ImageEditor.aspectRatio (ImageEditor.handleEdit env s).2
                = ImageEditor.aspectRatio s
             /\ ImageEditor.originalImage (ImageEditor.handleEdit env s).2
                = Some o
             /\ ImageEditor.referenceImage (ImageEditor.handleEdit env s).2
                = ImageEditor.referenceImage s)
            /\ ImageEditor.isLoading (ImageEditor.handleEdit env s).2 = false
            /\ ImageEditor.editedImages (ImageEditor.handleEdit env s).2 = None
            /\ exists text,
                 ImageEditor.error (ImageEditor.handleEdit env s).2 = Some text
                 /\ text <> []).
  { intros err -> Hp' Ho'. simpl. rewrite Hp', Ho'. repeat split; auto.
    eexists. split; [done|]. by apply or_else_nonempty. }
  destruct (fileToBase64 env (ImageEditor.file o)) as [b|err] eqn:Hb.
  2:{ destruct (Hfail err) as (Hframe & ? & ? & ?); try done.
      - unfold ImageEditor.handleEdit. by rewrite Hp, Ho, Hb.
      - split; [done|]. right. right. by right. }
  assert (Hready : forall part,
            match ImageEditor.referenceImage s with
            | Some r =>
                exists refBase64,
                  fileToBase64 env (ImageEditor.file r) = Ok refBase64
                  /\ part = Some (mkBlob refBase64 (type (ImageEditor.file r)))
            | None => part = None
            end ->
            (ImageEditor.prompt (ImageEditor.handleEdit env s).2 = c :: p
             /\ ImageEditor.aspectRatio (ImageEditor.handleEdit env s).2
                = ImageEditor.aspectRatio s
             /\ ImageEditor.originalImage (ImageEditor.handleEdit env s).2
                = Some o
             /\ ImageEditor.referenceImage (ImageEditor.handleEdit env s).2
                = ImageEditor.referenceImage s)
            /\ ((ImageEditor.isLoading (ImageEditor.handleEdit env s).2 = true
                 /\ ImageEditor.error (ImageEditor.handleEdit env s).2 = None
                 /\ ImageEditor.editedImages (ImageEditor.handleEdit env s).2
                    = None)
                \/ (ImageEditor.isLoading (ImageEditor.handleEdit env s).2 = false
                    /\ ImageEditor.error (ImageEditor.handleEdit env s).2 = None
                    /\ exists urls,
                         ImageEditor.editedImages (ImageEditor.handleEdit env s).2
                           = Some urls
                         /\ length urls = 4)
                \/ (ImageEditor.isLoading (ImageEditor.handleEdit env s).2 = false
                    /\ ImageEditor.editedImages (ImageEditor.handleEdit env s).2
                       = None
                    /\ exists text,
                         ImageEditor.error (ImageEditor.handleEdit env s).2
                           = Some text
                         /\ text <> []))).
  { intros part Hpart.
    rewrite (handleEdit_ready env s c p o b part Hp Ho Hb Hpart).
    cbv zeta. cbn [snd]. fold s1. split.
    - destruct (editImage _ _ _ _ _ _).2 as [[urls|err]|]; simpl;
        by rewrite ?Hp, ?Ho.
    - apply (edit_end_cases s1); try done.
      intros urls Hurls. by eapply editImage_four. }
  destruct (ImageEditor.referenceImage s) as [r|] eqn:Hr.
  - destruct (fileToBase64 env (ImageEditor.file r)) as [rb|err] eqn:Hrb.
    + destruct (Hready (Some (mkBlob rb (type (ImageEditor.file r)))))
        as [Hframe Hcases]; [by exists rb|].
      split; [done|]. by right.
    + destruct (Hfail err) as (Hframe & ? & ? & ?); try done.
      * unfold ImageEditor.handleEdit. by rewrite Hp, Ho, Hb, Hr, Hrb.
      * split; [done|]. right. right. by right.
  - destruct (Hready None) as [Hframe Hcases]; [done|].
    split; [done|]. by right.
Qed.

(** X18. Once the four calls of an edit have completed, in whatever order,
    the editor is no longer loading. *)
Theorem edit_ends_loading env s :
  ImageEditor.isLoading s = false ->
  schedule env ≡ₚ seq 0 4 ->
  ImageEditor.isLoading (ImageEditor.handleEdit env s).2 = false.
Proof.
  intros Hl Hperm.
  destruct (ImageEditor.prompt s) as [|c p] eqn:Hp.
  { unfold ImageEditor.handleEdit. by rewrite Hp. }
  destruct (ImageEditor.originalImage s) as [o|] eqn:Ho.
  2:{ unfold ImageEditor.handleEdit. by rewrite Hp, Ho. }
  destruct (fileToBase64 env (ImageEditor.file o)) as [b|err] eqn:Hb.
  2:{ unfold ImageEditor.handleEdit. by rewrite Hp, Ho, Hb. }
  assert (Hready : forall part,
            match ImageEditor.referenceImage s with
            | Some r =>
                exists refBase64,
                  fileToBase64 env (ImageEditor.file r) = Ok refBase64
                  /\ part = Some (mkBlob refBase64 (type (ImageEditor.file r)))
            | None => part = None
            end ->
            ImageEditor.isLoading (ImageEditor.handleEdit env s).2 = false).
  { intros part Hpart.
    rewrite (handleEdit_ready env s c p o b part Hp Ho Hb Hpart).
    cbv zeta. cbn [snd].
    destruct (editImage_settles (ai env) (schedule env)
                (ImageEditor.finalPrompt (c :: p) (ImageEditor.aspectRatio s))
                b (type (ImageEditor.file o)) part Hperm) as [outcome ->].
    by destruct outcome. }
  destruct (ImageEditor.referenceImage s) as [r|] eqn:Hr.
  - destruct (fileToBase64 env (ImageEditor.file r)) as [rb|err] eqn:Hrb.
    + apply (Hready (Some (mkBlob rb (type (ImageEditor.file r))))).
      by exists rb.
    + unfold ImageEditor.handleEdit. by rewrite Hp, Ho, Hb, Hr, Hrb.
  - by apply (Hready None).
Qed.

Lemma edit_ends_loading_witness :
  ImageEditor.isLoading
    (ImageEditor.handleEdit SampleRuns.edit_env SampleRuns.editor_state).2
  = false.
Proof.
  apply (edit_ends_loading SampleRuns.edit_env SampleRuns.editor_state).
  - reflexivity.
  - transitivity [1; 3; 0; 2]; [apply perm_swap|].
    transitivity [1; 0; 3; 2]; [apply perm_skip, perm_swap|].
    transitivity [0; 1; 3; 2]; [apply perm_swap|].
    do 2 apply perm_skip. apply perm_swap.
Defined.

End EditEnds.

(** ** Object URLs *)

Section ObjectURLs.
Import Browser.

Lemma elem_of_revoke u u' b :
  u' ∈ live (revokeObjectURL u b) <-> u' ∈ live b /\ u' <> u.
Proof.
  unfold revokeObjectURL. simpl.
  rewrite !list_elem_of_In, List.filter_In, negb_true_iff, bool_decide_eq_false.
  done.
Qed.

Lemma revoke_well_formed u b :
  well_formed b -> well_formed (revokeObjectURL u b).
Proof.
  intros [Hnodup Hold]. split.
  - unfold revokeObjectURL. simpl.
    apply NoDup_ListNoDup, List.NoDup_filter. by apply NoDup_ListNoDup.
  - intros u' [Hin _]%elem_of_revoke. apply (Hold u' Hin).
Qed.

Lemma create_fresh b : well_formed b -> (createObjectURL b).1 ∉ live b.
Proof.
  intros [_ Hold] Hin. destruct (Hold _ Hin) as (n & Hn & Heq).
  simpl in Heq. apply object_url_inj in Heq. lia.
Qed.

Lemma create_well_formed b :
  well_formed b -> well_formed (createObjectURL b).2.
Proof.
  intros Hb. assert (Hfresh := create_fresh b Hb). destruct Hb as [Hnodup Hold].
  split; simpl.
  - by constructor.
  - intros u [->|Hin]%elem_of_cons.
    + exists (counter b). split; [lia|done].
    + destruct (Hold u Hin) as (n & Hn & ->). exists n. split; [lia|done].
Qed.

Lemma elem_of_create u b :
  u ∈ live (createObjectURL b).2 <-> u = (createObjectURL b).1 \/ u ∈ live b.
Proof. simpl. apply elem_of_cons. Qed.

Lemma object_url_nonempty n : object_url n <> [].
Proof. done. Qed.

(** Replacing the URL of a slot: the old one, if any, is revoked and a
    fresh one takes its place among the URLs in use. *)
Lemma replace_url b (old : option jsstring) (rest : list jsstring) :
  well_formed b ->
  NoDup (option_list old ++ rest) ->
  (forall u, u ∈ live b <-> u ∈ option_list old ++ rest) ->
  let b1 := match old with Some u => revokeObjectURL u b | None => b end in
  well_formed (createObjectURL b1).2
  /\ NoDup ((createObjectURL b1).1 :: rest)
  /\ (forall u, u ∈ live (createObjectURL b1).2
               <-> u ∈ (createObjectURL b1).1 :: rest).
Proof.
  intros Hwf Hnodup Hiff b1.
  assert (Hwf1 : well_formed b1).
  { subst b1. destruct old; [by apply revoke_well_formed|done]. }
  assert (Hlive1 : forall u, u ∈ live b1 <-> u ∈ rest).
  { intros u. subst b1. destruct old as [o|]; simpl in Hnodup, Hiff.
    - rewrite elem_of_revoke, Hiff, elem_of_cons.
      apply NoDup_cons in Hnodup as [Hnotin _]. split.
      + intros [[->|Hin] Hne]; done.
      + intros Hin. split; [by right|]. by intros ->.
    - apply Hiff. }
  assert (Hfresh := create_fresh b1 Hwf1).
  split; [by apply create_well_formed|]. split.
  - apply NoDup_cons. split; [by rewrite <- Hlive1|].
    destruct old; [by apply NoDup_cons in Hnodup as [_ ?]|done].
  - intros u. rewrite elem_of_create, elem_of_cons. by rewrite Hlive1.
Qed.

(** Removing the URL of a slot revokes it. *)
Lemma remove_url b (old : jsstring) (rest : list jsstring) :
  well_formed b ->
  NoDup (old :: rest) ->
  (forall u, u ∈ live b <-> u ∈ old :: rest) ->
  well_formed (revokeObjectURL old b)
  /\ NoDup rest
  /\ (forall u, u ∈ live (revokeObjectURL old b) <-> u ∈ rest).
Proof.
  intros Hwf Hnodup Hiff. apply NoDup_cons in Hnodup as [Hnotin Hrest].
  split; [by apply revoke_well_formed|]. split; [done|].
  intros u. rewrite elem_of_revoke, Hiff, elem_of_cons. split.
  - intros [[->|Hin] Hne]; done.
  - intros Hin. split; [by right|]. by intros ->.
Qed.

End ObjectURLs.

(** ** The uploads of the editor *)

Section EditorUploads.
Import Browser ImageEditor.

Lemma pick_original_in_use picked b s :
  urls_in_use (b, s) -> urls_in_use (handleFileChange picked b s).
Proof.
  destruct picked as [file|]; [|done].
  unfold urls_in_use, handleFileChange, held. simpl.
  intros (Hwf & Hnodup & Hiff).
  destruct (replace_url b (url <$> originalImage s)
              (match referenceImage s with Some r => [url r] | None => [] end))
    as (Hwf' & Hnodup' & Hiff').
  - done.
  - by destruct (originalImage s).
  - intros u. rewrite Hiff. by destruct (originalImage s).
  - destruct (originalImage s); simpl in *; done.
Qed.

Lemma remove_original_in_use b s :
  urls_in_use (b, s) -> urls_in_use (handleRemoveOriginalImage b s).
Proof.
  unfold urls_in_use, handleRemoveOriginalImage, held.
  destruct (originalImage s) as [o|] eqn:Ho; simpl; [|by rewrite Ho].
  rewrite Ho. simpl. intros (Hwf & Hnodup & Hiff).
  by apply remove_url.
Qed.

Lemma pick_reference_in_use picked b s :
  urls_in_use (b, s) -> urls_in_use (handleReferenceFileChange picked b s).
Proof.
  destruct picked as [file|]; [|done].
  unfold urls_in_use, handleReferenceFileChange, held. simpl.
  intros (Hwf & Hnodup & Hiff).
  destruct (replace_url b (url <$> referenceImage s)
              (match originalImage s with Some o => [url o] | None => [] end))
    as (Hwf' & Hnodup' & Hiff').
  - done.
  - rewrite (Permutation_app_comm _ _). by destruct (referenceImage s).
  - intros u. rewrite Hiff, !elem_of_app.
    destruct (referenceImage s); simpl; tauto.
  - destruct (referenceImage s) as [r|]; simpl in *.
    + split; [done|]. split.
      * by rewrite (Permutation_app_comm _ _).
      * intros u. rewrite Hiff'. rewrite elem_of_app, elem_of_cons.
        rewrite list_elem_of_singleton. tauto.
    + split; [done|]. split.
      * by rewrite (Permutation_app_comm _ _).
      * intros u. rewrite Hiff'. rewrite elem_of_app, elem_of_cons.
        rewrite list_elem_of_singleton. tauto.
Qed.

Lemma remove_reference_in_use b s :
  urls_in_use (b, s) -> urls_in_use (handleRemoveReferenceImage b s).
Proof.
  unfold urls_in_use, handleRemoveReferenceImage, held.
  destruct (referenceImage s) as [r|] eqn:Hr; simpl; [|by rewrite Hr].
  rewrite Hr. simpl. intros (Hwf & Hnodup & Hiff).
  destruct (remove_url b (url r)
              (match originalImage s with Some o => [url o] | None => [] end))
    as (Hwf' & Hnodup' & Hiff').
  - done.
  - by rewrite (Permutation_app_comm _ [url r]) in Hnodup.
  - intros u. rewrite Hiff, elem_of_app, !elem_of_cons, elem_of_nil. tauto.
  - split; [done|]. rewrite app_nil_r. done.
Qed.

Lemma handleEdit_keeps_images env s :
  held (handleEdit env s).2 = held s.
Proof.
  unfold held, handleEdit.
  destruct (prompt s) as [|c p]; [done|].
  destruct (originalImage s) as [o|] eqn:Ho; [|simpl; by rewrite Ho].
  cbv zeta.
  destruct (fileToBase64 env (file o)) as [b|e]; cbn [mbind result_bind];
    [|simpl; by rewrite Ho].
  destruct (referenceImage s) as [r|] eqn:Hr.
  - destruct (fileToBase64 env (file r)) as [rb|e]; cbn [mbind result_bind];
      [|simpl; by rewrite Ho, Hr].
    destruct (GeminiService.editImage _ _ _ _ _ _) as [calls [[urls|e]|]];
      simpl; by rewrite Ho, Hr.
  - cbn [mbind result_bind].
    destruct (GeminiService.editImage _ _ _ _ _ _) as [calls [[urls|e]|]];
      simpl; by rewrite Ho, Hr.
Qed.

Lemma dispatch_in_use w ev : urls_in_use w -> urls_in_use (dispatch w ev).
Proof.
  destruct w as [b s]. intros Hw. unfold dispatch.
  destruct (isLoading s); [done|].
  destruct ev as [picked| |picked| |value|r|env].
  - by apply pick_original_in_use.
  - by apply remove_original_in_use.
  - by apply pick_reference_in_use.
  - by apply remove_reference_in_use.
  - by destruct (inputs_disabled s).
  - by destruct (inputs_disabled s).
  - destruct (edit_disabled s); [done|].
    unfold urls_in_use in *. simpl in *. by rewrite handleEdit_keeps_images.
Qed.

(** X19. The object URLs of the editor never leak and are never used after
    they are revoked: in every state the form can reach, the URLs that are
    live are exactly those of the image to edit and of the style reference
    that the component holds, and the two differ. *)
Theorem editor_object_urls evs :
  NoDup (held (run evs).2)
  /\ forall u, u ∈ live (run evs).1 <-> u ∈ held (run evs).2.
Proof.
  assert (Hinv : urls_in_use (run evs)).
  { unfold run.
    assert (Hstart : urls_in_use (empty, initial)).
    { split; [|split]; simpl.
      - split; [constructor|]. by intros u Hu%elem_of_nil.
      - constructor.
      - done. }
    revert Hstart. generalize (empty, initial).
    induction evs as [|ev evs IH]; intros w Hw; [done|].
    simpl. apply IH. by apply dispatch_in_use. }
  destruct Hinv as (_ & Hnodup & Hiff). done.
Qed.

End EditorUploads.

(** ** The character slots of the generator *)

Section CharacterSlots.
Import Browser ImageGenerator.

Lemma two_slots {A} (l : list A) : length l = 2 -> exists a b, l = [a; b].
Proof. destruct l as [|a [|b [|c l]]]; try done. by exists a, b. Qed.

Lemma live_url_nonempty b u : well_formed b -> u ∈ live b -> u <> [].
Proof. intros [_ Hold] Hin. by destruct (Hold u Hin) as (n & _ & ->). Qed.

(** The old URL of a slot that holds one is revoked. *)
Lemma revoke_slot_held index urls b u :
  urls !! index = Some (Some u) -> u <> [] ->
  revoke_slot index urls b = revokeObjectURL u b.
Proof. unfold revoke_slot. intros -> Hu. by destruct u. Qed.

Lemma revoke_slot_free index urls b :
  urls !! index = Some None -> revoke_slot index urls b = b.
Proof. unfold revoke_slot. by intros ->. Qed.

Lemma pick_character_in_use index picked b f :
  index < 2 ->
  slots_in_use (b, f) ->
  slots_in_use (handleCharacterFileChange index picked b f).
Proof.
  intros Hindex. destruct picked as [file|]; [|done].
  unfold slots_in_use, handleCharacterFileChange. simpl.
  intros (Hwf & Himgs & Hurls & Halign & Hnodup & Hiff).
  destruct (two_slots _ Himgs) as (i0 & i1 & Hi).
  destruct (two_slots _ Hurls) as (u0 & u1 & Hu).
  rewrite Hi, Hu in *. clear Himgs Hurls.
  assert (Hne : forall u, u ∈ omap id [u0; u1] -> u <> []).
  { intros u Hin. apply (live_url_nonempty b u Hwf). by apply Hiff. }
  destruct index as [|[|index]]; [| |lia].
  - assert (Hb1 : revoke_slot 0 [u0; u1] b
                  = match u0 with Some u => revokeObjectURL u b | None => b end).
    { destruct u0 as [u|].
      - apply revoke_slot_held; [done|]. apply Hne. left.
      - by apply revoke_slot_free. }
    rewrite Hb1.
    destruct (replace_url b u0 (option_list u1)) as (Hwf' & Hnodup' & Hiff').
    + done.
    + by destruct u0, u1.
    + intros u. rewrite Hiff. by destruct u0, u1.
    + split; [done|]. split; [done|]. split; [done|]. split.
      * intros [|[|i]]; simpl; [|apply (Halign 1)|apply (Halign (S (S i)))].
        split; intros _; by eexists.
      * simpl. split; [by destruct u1|]. intros u. rewrite Hiff'. by destruct u1.
  - assert (Hb1 : revoke_slot 1 [u0; u1] b
                  = match u1 with Some u => revokeObjectURL u b | None => b end).
    { destruct u1 as [u|].
      - apply revoke_slot_held; [done|]. apply Hne. destruct u0; [right|]; left.
      - by apply revoke_slot_free. }
    rewrite Hb1.
    destruct (replace_url b u1 (option_list u0)) as (Hwf' & Hnodup' & Hiff').
    + done.
    + rewrite (Permutation_app_comm _ _). by destruct u0, u1.
    + intros u. rewrite Hiff, elem_of_app. destruct u0, u1; simpl;
        rewrite ?elem_of_cons, ?elem_of_nil; tauto.
    + split; [done|]. split; [done|]. split; [done|]. split.
      * intros [|[|i]]; simpl; [apply (Halign 0)| |apply (Halign (S (S i)))].
        split; intros _; by eexists.
      * simpl. split.
        -- destruct u0; simpl; [|done].
           by rewrite (Permutation_swap _ _ _).
        -- intros u. rewrite Hiff'. destruct u0; simpl;
             rewrite ?elem_of_cons, ?elem_of_nil; tauto.
Qed.

Lemma remove_character_in_use index b f u :
  index < 2 ->
  characterImageUrls f !! index = Some (Some u) ->
  slots_in_use (b, f) ->
  slots_in_use (handleRemoveCharacterImage index b f).
Proof.
  intros Hindex Hslot. unfold slots_in_use, handleRemoveCharacterImage. simpl.
  intros (Hwf & Himgs & Hurls & Halign & Hnodup & Hiff).
  assert (Hu : u <> []).
  { apply (live_url_nonempty b u Hwf), Hiff.
    apply list_elem_of_omap. exists (Some u). split; [|done].
    by eapply list_elem_of_lookup_2. }
  rewrite (revoke_slot_held index _ b u Hslot Hu).
  destruct (two_slots _ Himgs) as (i0 & i1 & Hi).
  destruct (two_slots _ Hurls) as (u0 & u1 & Hus).
  rewrite Hi, Hus in *. clear Himgs Hurls.
  destruct index as [|[|index]]; [| |lia]; simpl in Hslot;
    injection Hslot as ->.
  - destruct (remove_url b u (option_list u1)) as (Hwf' & Hnodup' & Hiff').
    + done.
    + by destruct u1.
    + intros u'. rewrite Hiff. by destruct u1.
    + split; [done|]. split; [done|]. split; [done|]. split.
      * intros [|[|i]]; simpl; [|apply (Halign 1)|apply (Halign (S (S i)))].
        split; intros [? [=]].
      * simpl. split; [by destruct u1|]. intros u'. rewrite Hiff'.
        by destruct u1.
  - destruct (remove_url b u (option_list u0)) as (Hwf' & Hnodup' & Hiff').
    + done.
    + destruct u0; simpl in *; [|done]. by rewrite (Permutation_swap _ _ _).
    + intros u'. rewrite Hiff. destruct u0; simpl;
        rewrite ?elem_of_cons, ?elem_of_nil; tauto.
    + split; [done|]. split; [done|]. split; [done|]. split.
      * intros [|[|i]]; simpl; [apply (Halign 0)| |apply (Halign (S (S i)))].
        split; intros [? [=]].
      * simpl. split.
        -- destruct u0; simpl in *; [|constructor]. done.
        -- intros u'. rewrite Hiff'. destruct u0; simpl;
             rewrite ?elem_of_cons, ?elem_of_nil; tauto.
Qed.

Lemma handleGenerate_keeps_characters env s :
  characterImages (handleGenerate env s).2 = characterImages s.
Proof.
  unfold handleGenerate. destruct (mode s).
  - destruct (prompt s); [done|].
    destruct (GeminiService.generateImage _ _ _) as [calls [urls|e]]; done.
  - destruct (List.filter not_blank (storyboardPrompts s)); [done|].
    destruct (encode_characters _ _) as [imgs|e]; [|done]. simpl.
    destruct (promise_all _ _) as [[urls|e]|]; done.
Qed.

Lemma dispatch_keeps_characters s ev :
  characterImages (dispatch s ev) = characterImages s.
Proof.
  destruct ev as [value|index value| |index|m|r|env]; simpl; try done.
  - by destruct (Nat.ltb index _).
  - unfold handleRemoveScene. by destruct (Nat.ltb 1 _).
  - apply handleGenerate_keeps_characters.
Qed.

Lemma dispatch_form_in_use w ev :
  slots_in_use w -> slots_in_use (dispatch_form w ev).
Proof.
  destruct w as [b f]. intros Hw. unfold dispatch_form.
  destruct ev as [index picked|index|ev].
  - destruct (Nat.ltb_spec index 2); [|done]. by apply pick_character_in_use.
  - destruct (characterImageUrls f !! index) as [[[|c u]|]|] eqn:Hslot;
      try done.
    destruct (Nat.ltb_spec index 2); [|done].
    by apply (remove_character_in_use index b f (c :: u)).
  - unfold slots_in_use in *. simpl in *.
    by rewrite dispatch_keeps_characters.
Qed.

Lemma omap_id_length {A} (l : list (option A)) : length (omap id l) <= length l.
Proof. induction l as [|[a|] l IH]; cbn in *; lia. Qed.

(** X20. The generator keeps two character slots. In every state the form
    can reach a slot holds a file exactly when it holds a preview URL, the
    object URLs that are live are exactly the previews of the slots, each
    once, and a storyboard request carries at most two character images. *)
Theorem character_slots evs :
  length (characterImages (state (run_form evs).2)) = 2
  /\ length (characterImageUrls (run_form evs).2) = 2
  /\ (forall i,
        (exists file,
           characterImages (state (run_form evs).2) !! i = Some (Some file))
        <-> (exists u, characterImageUrls (run_form evs).2 !! i = Some (Some u)))
  /\ NoDup (omap id (characterImageUrls (run_form evs).2))
  /\ (forall u, u ∈ live (run_form evs).1
               <-> u ∈ omap id (characterImageUrls (run_form evs).2))
  /\ (forall read parts,
        encode_characters read (characterImages (state (run_form evs).2))
          = Ok parts ->
        length parts <= 2).
Proof.
  assert (Hinv : slots_in_use (run_form evs)).
  { unfold run_form.
    assert (Hstart : slots_in_use (empty, initial_form)).
    { unfold slots_in_use. simpl. split; [|repeat split]; try done.
      - split; [constructor|]. by intros u Hu%elem_of_nil.
      - intros [file Hfile]. by destruct i as [|[|i]].
      - intros [u Hu]. by destruct i as [|[|i]].
      - constructor. }
    revert Hstart. generalize (empty, initial_form).
    induction evs as [|ev evs IH]; intros w Hw; [done|].
    simpl. apply IH. by apply dispatch_form_in_use. }
  destruct Hinv as (_ & Himgs & Hurls & Halign & Hnodup & Hiff).
  do 5 (split; [done|]).
  intros read parts Henc. apply encode_characters_parts in Henc.
  apply Forall2_length in Henc. rewrite <- Henc, <- Himgs.
  apply omap_id_length.
Qed.

End CharacterSlots.

(** ** The conversation *)

Section Conversation.
Import Chatbot.

Lemma alternates_snoc next transcript m :
  alternates next transcript = true ->
  alternates next (transcript ++ [m])
  = is_role (if Nat.even (length transcript) then next else other next) m.
Proof.
  revert next.
  induction transcript as [|m0 transcript IH]; intros next;
    cbn [alternates app length].
  - intros _. by rewrite andb_true_r.
  - intros [Hm0 Hrest]%andb_prop. rewrite Hm0, (IH _ Hrest).
    rewrite Nat.even_succ, <- Nat.negb_even.
    by destruct (Nat.even (length transcript)), next.
Qed.

Lemma user_messages_snoc transcript m :
  List.filter (is_role user) (transcript ++ [m])
  = List.filter (is_role user) transcript
    ++ (if is_role user m then [m] else []).
Proof. rewrite List.filter_app. simpl. by destruct (is_role user m). Qed.

Lemma send_conversation s :
  isLoading s = false ->
  conversation s -> conversation (handleSendMessage s).
Proof.
  intros Hl (Hflight & Halt & Hodd & Hsent & Hblank).
  unfold handleSendMessage.
  destruct (blank (userInput s)) eqn:Hinput; simpl; [done|].
  destruct (no_chat s); [done|].
  assert (Hp : pending s = 0).
  { destruct Hflight as [[? _]|[_ ?]]; congruence. }
  unfold conversation. simpl. split; [left; by rewrite Hp|]. split; [|split; [|split]].
  - rewrite alternates_snoc by done.
    rewrite <- Nat.negb_odd, Hodd, Hl. done.
  - rewrite length_app. simpl. rewrite Nat.add_1_r, Nat.odd_succ.
    rewrite <- Nat.negb_odd, Hodd, Hl. done.
  - rewrite user_messages_snoc, map_app, <- Hsent. done.
  - apply Forall_app. split; [done|]. by constructor.
Qed.

Lemma dispatch_conversation s ev : conversation s -> conversation (dispatch s ev).
Proof.
  intros Hs. destruct ev as [|value| |key|outcome]; simpl.
  - done.
  - by destruct (input_disabled s).
  - unfold button_disabled. destruct (isLoading s) eqn:Hl; [done|]. simpl.
    destruct (no_chat s || blank (userInput s)); [done|].
    by apply send_conversation.
  - unfold input_disabled, handleKeyPress.
    destruct (isLoading s) eqn:Hl; [done|]. simpl.
    destruct (no_chat s); [done|]. rewrite andb_true_r.
    destruct (bool_decide _); [|done]. by apply send_conversation.
  - destruct Hs as (Hflight & Halt & Hodd & Hsent & Hblank).
    unfold resume. destruct (pending s) as [|n] eqn:Hp; [done|].
    assert (Hl : isLoading s = true /\ n = 0).
    { destruct Hflight as [[? ?]|[_ ?]]; [split; [done|lia]|lia]. }
    destruct Hl as [Hl ->].
    set (reply := match outcome with
                  | Ok response_text => mkMessage model response_text
                  | Throw _ => apology
                  end).
    assert (Hrole : is_role model reply = true /\ is_role user reply = false)
      by (subst reply; by destruct outcome).
    destruct Hrole as [Hmodel Huser].
    unfold conversation. simpl. split; [by right|]. split; [|split; [|split]].
    + rewrite alternates_snoc by done.
      rewrite <- Nat.negb_odd, Hodd, Hl. done.
    + rewrite length_app. simpl. rewrite Nat.add_1_r, Nat.odd_succ.
      rewrite <- Nat.negb_odd, Hodd, Hl. done.
    + rewrite user_messages_snoc, Huser, app_nil_r. done.
    + done.
Qed.

(** X21. In every state the chat can reach, the transcript alternates
    between the user and the assistant, beginning with the user; its last
    message is the user's exactly while a reply is awaited; the messages
    shown as the user's are, in order, exactly those that were sent to the
    service; and none of them is blank. *)
Theorem transcript_is_a_conversation evs :
  alternates user (messages (run initial evs)) = true
  /\ Nat.odd (length (messages (run initial evs))) = isLoading (run initial evs)
  /\ sent (run initial evs)
     = map text (List.filter (is_role user) (messages (run initial evs)))
  /\ Forall (fun t => blank t = false) (sent (run initial evs)).
Proof.
  assert (Hinv : forall s, conversation s -> conversation (run s evs)).
  { induction evs as [|ev evs IH]; intros s Hs; [done|].
    unfold run in *. simpl. apply IH. by apply dispatch_conversation. }
  destruct (Hinv initial) as (_ & Halt & Hodd & Hsent & Hblank); [|done].
  unfold conversation. simpl. split; [by right|]. repeat split; done.
Qed.

(** X22. A reply is shown as it came: from a Ready session, submitting an
    input that is not blank and receiving a reply appends the user's
    message and then the assistant's message with the text of the reply,
    clears the input and leaves the session Ready. *)
Theorem reply_is_appended s input reply :
  phase s = Ready ->
  blank input = false ->
  let s' := run s [ChangeInput input; ClickSend; Response (Ok reply)] in
  messages s' = messages s ++ [mkMessage user input; mkMessage model reply]
  /\ userInput s' = []
  /\ sent s' = sent s ++ [input]
  /\ pending s' = pending s
  /\ phase s' = Ready.
Proof.
  intros Hready Hinput s'. subst s'.
  change (run s [ChangeInput input; ClickSend; Response (Ok reply)])
    with (dispatch (run s [ChangeInput input; ClickSend]) (Response (Ok reply))).
  rewrite (send_from_ready s input Hready Hinput). simpl.
  rewrite <- app_assoc. repeat split; try done.
  unfold phase in *. simpl. by destruct (chat s).
Qed.

Lemma reply_is_appended_witness :
  messages (run SampleRuns.ready_chat
              [ChangeInput (lit "hello"); ClickSend; Response (Ok (lit "Hi there"))])
    = messages SampleRuns.ready_chat
      ++ [mkMessage user (lit "hello"); mkMessage model (lit "Hi there")]
  /\ userInput (run SampleRuns.ready_chat
              [ChangeInput (lit "hello"); ClickSend; Response (Ok (lit "Hi there"))])
     = []
  /\ sent (run SampleRuns.ready_chat
              [ChangeInput (lit "hello"); ClickSend; Response (Ok (lit "Hi there"))])
     = sent SampleRuns.ready_chat ++ [lit "hello"]
  /\ pending (run SampleRuns.ready_chat
              [ChangeInput (lit "hello"); ClickSend; Response (Ok (lit "Hi there"))])
     = pending SampleRuns.ready_chat
  /\ phase (run SampleRuns.ready_chat
              [ChangeInput (lit "hello"); ClickSend; Response (Ok (lit "Hi there"))])
     = Ready.
Proof.
  apply (reply_is_appended SampleRuns.ready_chat (lit "hello") (lit "Hi there"));
    reflexivity.
Defined.

(** X23. Before the session is created nothing can be typed or sent: as
    long as the component has not mounted its session, every event leaves
    the initial state as it is. *)
Theorem nothing_happens_before_the_session evs :
  Forall (fun ev => ev <> Mount) evs ->
  run initial evs = initial.
Proof.
  intros Hevs. unfold run.
  induction Hevs as [|ev evs Hev _ IH]; [done|].
  simpl. by destruct ev as [|value| |key|outcome].
Qed.

Lemma nothing_happens_before_the_session_witness :
  run initial [ChangeInput (lit "hello"); ClickSend; KeyPress (lit "Enter");
               Response (Ok (lit "Hi there"))]
  = initial.
Proof.
  apply (nothing_happens_before_the_session
           [ChangeInput (lit "hello"); ClickSend; KeyPress (lit "Enter");
            Response (Ok (lit "Hi there"))]).
  repeat constructor; discriminate.
Defined.

End Conversation.

(** ** Adding scenes *)

Section SceneRows.
Import ImageGenerator.

Lemma delete_last {A} (xs : list A) (x : A) :
  delete (length xs) (xs ++ [x]) = xs.
Proof. induction xs as [|x0 xs IH]; simpl; [done|]. by rewrite IH. Qed.

(** X24. Adding a scene and removing the added row restores the form, as
    long as there was a scene before. *)
Theorem added_scene_can_be_removed s :
  storyboardPrompts s <> [] ->
  handleRemoveScene (length (storyboardPrompts s)) (handleAddScene s) = s.
Proof.
  intros Hrows. destruct s as [p rows ratio imgs loading err m chars].
  cbn [storyboardPrompts] in Hrows.
  unfold handleRemoveScene, handleAddScene, setStoryboardPrompts.
  cbn [storyboardPrompts prompt aspectRatio generatedImages isLoading error
       mode characterImages].
  destruct (Nat.ltb_spec 1 (length (rows ++ [[]]))) as [_|Hle].
  - f_equal. rewrite (filter_indexed_delete (length rows) 0).
    apply delete_last.
  - rewrite length_app in Hle. destruct rows; [done|]. simpl in Hle. lia.
Qed.

Lemma added_scene_can_be_removed_witness :
  handleRemoveScene (length (storyboardPrompts Sample.storyboard_state))
                    (handleAddScene Sample.storyboard_state)
  = Sample.storyboard_state.
Proof.
  apply (added_scene_can_be_removed Sample.storyboard_state). discriminate.
Defined.

(** X25. A scene that was added and left empty does not count: generating
    sends the same requests and shows the same images or the same error as
    without it. *)
Theorem empty_added_scene_is_skipped env s :
  (handleGenerate env (handleAddScene s)).1 = (handleGenerate env s).1
  /\ generatedImages (handleGenerate env (handleAddScene s)).2
     = generatedImages (handleGenerate env s).2
  /\ error (handleGenerate env (handleAddScene s)).2
     = error (handleGenerate env s).2
  /\ isLoading (handleGenerate env (handleAddScene s)).2
     = isLoading (handleGenerate env s).2.
Proof.
  unfold handleGenerate, handleAddScene.
  cbn [mode prompt storyboardPrompts characterImages aspectRatio setStoryboardPrompts].
  destruct (mode s).
  - destruct (prompt s); [done|].
    destruct (GeminiService.generateImage _ _ _) as [calls [urls|e]]; done.
  - rewrite List.filter_app.
    change (List.filter not_blank [[]]) with (@nil jsstring).
    rewrite app_nil_r.
    destruct (List.filter not_blank (storyboardPrompts s)); [done|].
    destruct (encode_characters _ _) as [imgs|e]; [|done]. cbn zeta.
    destruct (promise_all _ _) as [[urls|e]|]; done.
Qed.

End SceneRows.
